(** * ChessVar: a shallow embedding of [ChessVar.py] and its properties

    The Python program keeps an 8x8 grid of optional pieces, a nested
    dictionary of remaining piece counts, whose turn it is and the game state.
    The embedding follows the classes of the source: [ChessBoard], [Piece]
    with its six subclasses, and [ChessVar].

    - Python integers are [Z]; list indexing keeps Python's rules (a negative
      index counts from the end, anything else out of range raises
      [IndexError]).
    - Dictionaries are [gmap]s; a missing key raises [KeyError].
    - The strings ['WHITE'], ['BLACK'], the class names and the three game
      states are used by the program as enumerations and are modelled as such.
    - Every method runs in a small monad that carries the outcome (a value, a
      raised exception, or an exhausted loop budget) and the list of grid cells
      the call touched.
    - The two tokens of a move are strings of 8-bit characters, and
      [str.upper] is the ASCII one.
    - What [print] writes to the console is left out; [display_board] is kept
      for the cells of the grid it reads. *)

From Stdlib Require Import ZArith Ascii String.
From stdpp Require Import base decidable countable option list gmap strings.

Local Open Scope Z_scope.

(** ** Outcomes *)

Inductive exn : Set := IndexError | KeyError.

Inductive result (A : Type) : Type :=
| Ok (a : A)
| Raise (e : exn)
| OutOfFuel.
Arguments Ok {A} a.
Arguments Raise {A} e.
Arguments OutOfFuel {A}.

(** A computation: the grid cells accessed, in order, and the outcome. *)
Record M (A : Type) : Type := mkM {
  accesses : list (Z * Z);
  value : result A
}.
Arguments mkM {A} _ _.
Arguments accesses {A} _.
Arguments value {A} _.

Definition M_ret {A} (a : A) : M A := mkM [] (Ok a).

Definition M_bind {A B} (f : A → M B) (m : M A) : M B :=
  match value m with
  | Ok a => let r := f a in mkM (accesses m ++ accesses r) (value r)
  | Raise e => mkM (accesses m) (Raise e)
  | OutOfFuel => mkM (accesses m) OutOfFuel
  end.

#[global] Instance M_mret : MRet M := @M_ret.
#[global] Instance M_mbind : MBind M := @M_bind.

Definition out_of_fuel {A} : M A := mkM [] OutOfFuel.
Definition touch (row col : Z) : M unit := mkM [(row, col)] (Ok tt).
Definition lift {A} (r : result A) : M A := mkM [] r.

(** ** Python containers *)

(** [l[i]] position: [i] itself when [0 <= i < len], [len + i] when
    [-len <= i < 0], no position otherwise. *)
Definition norm_index (len : nat) (i : Z) : option nat :=
  if (0 <=? i) && (i <? Z.of_nat len) then Some (Z.to_nat i)
  else if (- Z.of_nat len <=? i) && (i <? 0) then Some (Z.to_nat (Z.of_nat len + i))
  else None.

Definition list_getitem {A} (l : list A) (i : Z) : result A :=
  match norm_index (length l) i with
  | Some n => match l !! n with Some x => Ok x | None => Raise IndexError end
  | None => Raise IndexError
  end.

Definition list_setitem {A} (l : list A) (i : Z) (x : A) : result (list A) :=
  match norm_index (length l) i with
  | Some n => Ok (<[n := x]> l)
  | None => Raise IndexError
  end.

(** [s[i]] on a string is the one-character string at that position. *)
Definition str_getitem (s : string) (i : Z) : result string :=
  match norm_index (String.length s) i with
  | Some n => match String.get n s with
              | Some c => Ok (String c EmptyString)
              | None => Raise IndexError
              end
  | None => Raise IndexError
  end.

(** [str.upper] on the ASCII range: [a]..[z] become [A]..[Z]. *)
Definition upper_ascii (c : ascii) : ascii :=
  let n := nat_of_ascii c in
  if (97 <=? n)%nat && (n <=? 122)%nat then ascii_of_nat (n - 32) else c.

Fixpoint upper (s : string) : string :=
  match s with
  | EmptyString => EmptyString
  | String c s' => String (upper_ascii c) (upper s')
  end.

(** [x in t] for a tuple of strings. *)
Definition str_in (x : string) (t : list string) : bool :=
  existsb (String.eqb x) t.

(** [d[k]] *)
Definition dict_getitem `{Countable K} {V} (d : gmap K V) (k : K) : result V :=
  match d !! k with
  | Some v => Ok v
  | None => Raise KeyError
  end.

(** [0 in d.values()] *)
Definition zero_in_values `{Countable K} (d : gmap K Z) : bool :=
  existsb (Z.eqb 0) (snd <$> map_to_list d).

(** [for x in l: body(x)] *)
Fixpoint for_each {A} (l : list A) (body : A → M unit) : M unit :=
  match l with
  | [] => mret tt
  | x :: l' => _ ← body x; for_each l' body
  end.

(** ** Colors, kinds, pieces *)

Inductive Color : Set := WHITE | BLACK.
Inductive Kind : Set := King | Queen | Rook | Bishop | Knight | Pawn.
Inductive GameState : Set := UNFINISHED | WHITE_WON | BLACK_WON.

#[global] Instance Color_eq_dec : EqDecision Color.
Proof. solve_decision. Defined.
#[global] Instance Kind_eq_dec : EqDecision Kind.
Proof. solve_decision. Defined.
#[global] Instance GameState_eq_dec : EqDecision GameState.
Proof. solve_decision. Defined.

Definition Color_code (c : Color) : positive :=
  match c with WHITE => 1 | BLACK => 2 end%positive.
Definition Color_of_code (p : positive) : option Color :=
  match p with 1 => Some WHITE | 2 => Some BLACK | _ => None end%positive.
#[global] Program Instance Color_countable : Countable Color :=
  {| encode := Color_code; decode := Color_of_code |}.
Next Obligation. by intros []. Qed.

Definition Kind_code (k : Kind) : positive :=
  match k with
  | King => 1 | Queen => 2 | Rook => 3 | Bishop => 4 | Knight => 5 | Pawn => 6
  end%positive.
Definition Kind_of_code (p : positive) : option Kind :=
  match p with
  | 1 => Some King | 2 => Some Queen | 3 => Some Rook
  | 4 => Some Bishop | 5 => Some Knight | 6 => Some Pawn
  | _ => None
  end%positive.
#[global] Program Instance Kind_countable : Countable Kind :=
  {| encode := Kind_code; decode := Kind_of_code |}.
Next Obligation. by intros []. Qed.

(** A piece object: its class and the [_color] attribute. *)
Record PieceObj : Set := mkPiece { class_name : Kind; get_color : Color }.

#[global] Instance PieceObj_eq_dec : EqDecision PieceObj.
Proof. solve_decision. Defined.

(** ** class ChessBoard *)

Module ChessBoard.

Record t : Type := mk {
  _board : list (list (option PieceObj));
  _current_pieces_on_board : gmap Color (gmap Kind Z)
}.

Definition back_rank (c : Color) : list (option PieceObj) :=
  [Some (mkPiece Rook c); Some (mkPiece Knight c); Some (mkPiece Bishop c);
   Some (mkPiece Queen c); Some (mkPiece King c); Some (mkPiece Bishop c);
   Some (mkPiece Knight c); Some (mkPiece Rook c)].

Definition pawn_rank (c : Color) : list (option PieceObj) :=
  replicate 8 (Some (mkPiece Pawn c)).

Definition empty_rank : list (option PieceObj) := replicate 8 None.

Definition full_set : gmap Kind Z :=
  <[King := 1]> (<[Queen := 1]> (<[Rook := 2]> (<[Bishop := 2]>
    (<[Knight := 2]> (<[Pawn := 8]> ∅))))).

Definition __init__ : t :=
  mk [back_rank BLACK; pawn_rank BLACK;
      empty_rank; empty_rank; empty_rank; empty_rank;
      pawn_rank WHITE; back_rank WHITE]
     (<[WHITE := full_set]> (<[BLACK := full_set]> ∅)).

Definition get_board (self : t) := _board self.

Definition get_current_pieces_on_board (self : t) :=
  _current_pieces_on_board self.

(** [return self._board[row][col]] *)
Definition get_piece_at (self : t) (row col : Z) : M (option PieceObj) :=
  _ ← touch row col;
  r ← lift (list_getitem (_board self) row);
  lift (list_getitem r col).

(** The rows and columns are walked in order; each cell is read, with
    [self._board[row][col]] as in [get_piece_at], once to test it for [None]
    and, when it holds a piece, once more to print it. *)
Definition display_board (self : t) : M unit :=
  for_each (seqZ 0 8) (λ row,
    for_each (seqZ 0 8) (λ col,
      p ← get_piece_at self row col;
      match p with
      | None => mret tt
      | Some _ => _ ← get_piece_at self row col; mret tt
      end)).

(** [self._current_pieces_on_board[color][piece_name] -= 1] *)
Definition remove_piece_from_board (self : t) (color : Color)
    (piece_name : Kind) : M t :=
  inner ← lift (dict_getitem (_current_pieces_on_board self) color);
  n ← lift (dict_getitem inner piece_name);
  mret (mk (_board self)
           (<[color := <[piece_name := n - 1]> inner]>
              (_current_pieces_on_board self))).

(** The assignment [self._board[row][col] = x]: the row is fetched and
    updated in place. *)
Definition set_piece_at (self : t) (row col : Z) (x : option PieceObj) : M t :=
  _ ← touch row col;
  r ← lift (list_getitem (_board self) row);
  r' ← lift (list_setitem r col x);
  b' ← lift (list_setitem (_board self) row r');
  mret (mk b' (_current_pieces_on_board self)).

Definition move_piece (self : t) (from_row from_col to_row to_col : Z) : M t :=
  (* if to_square has other color's piece, capture it *)
  _ ← touch to_row to_col;
  r ← lift (list_getitem (_board self) to_row);
  piece_at_to_square ← lift (list_getitem r to_col);
  self ← match piece_at_to_square with
         | Some p => remove_piece_from_board self (get_color p) (class_name p)
         | None => mret self
         end;
  (* move piece from from_square to to_square *)
  _ ← touch from_row from_col;
  r ← lift (list_getitem (_board self) from_row);
  moved ← lift (list_getitem r from_col);
  self ← set_piece_at self to_row to_col moved;
  set_piece_at self from_row from_col None.

End ChessBoard.

(** ** class Piece *)

(** The axis whose coordinate a path loop compares with its target. *)
Inductive Axis : Set := ByRow | ByCol.

Definition along (a : Axis) (row col : Z) : Z :=
  match a with ByRow => row | ByCol => col end.

Module Piece.

(** Shared colour check of the base class. *)
Definition is_valid_move (self : PieceObj) (board_object : ChessBoard.t)
    (turn : Color) (from_row from_col to_row to_col : Z) : M bool :=
  if negb (bool_decide (get_color self = turn)) then mret false
  else
    piece_at_to_square ← ChessBoard.get_piece_at board_object to_row to_col;
    match piece_at_to_square with
    | Some q => if bool_decide (get_color q = turn) then mret false else mret true
    | None => mret true
    end.

(** The eight [while] loops of the three path checks have one shape:
<<
    while (coordinate of the next square) != target:
        if board_object.get_piece_at(next square) is None:
            advance to the next square
        else:
            return False
>>
    with the next square one step [(d_row, d_col)] away, and the compared
    coordinate the column (horizontal and diagonal loops) or the row (vertical
    loops). The result [true] stands for leaving the loop, after which each
    check returns [True]. Each test of the loop condition uses one unit of
    [fuel]. *)
Fixpoint while_clear (fuel : nat) (board_object : ChessBoard.t)
    (d_row d_col : Z) (axis : Axis) (target : Z) (row col : Z) : M bool :=
  match fuel with
  | O => out_of_fuel
  | S fuel' =>
      if negb (along axis (row + d_row) (col + d_col) =? target) then
        p ← ChessBoard.get_piece_at board_object (row + d_row) (col + d_col);
        match p with
        | None => while_clear fuel' board_object d_row d_col axis target
                    (row + d_row) (col + d_col)
        | Some _ => mret false
        end
      else mret true
  end.

Definition check_horizontal_path (board_object : ChessBoard.t)
    (from_row from_col to_col : Z) : M bool :=
  if from_col <? to_col then
    while_clear (Z.to_nat (to_col - from_col)) board_object 0 1 ByCol to_col
      from_row from_col
  else if from_col >? to_col then
    while_clear (Z.to_nat (from_col - to_col)) board_object 0 (-1) ByCol to_col
      from_row from_col
  else mret true.

Definition check_vertical_path (board_object : ChessBoard.t)
    (from_row from_col to_row : Z) : M bool :=
  if from_row <? to_row then
    while_clear (Z.to_nat (to_row - from_row)) board_object 1 0 ByRow to_row
      from_row from_col
  else if from_row >? to_row then
    while_clear (Z.to_nat (from_row - to_row)) board_object (-1) 0 ByRow to_row
      from_row from_col
  else mret true.

Definition check_diagonal_path (board_object : ChessBoard.t)
    (from_row from_col to_row to_col : Z) : M bool :=
  if (from_row >? to_row) && (from_col <? to_col) then
    while_clear (Z.to_nat (to_col - from_col)) board_object (-1) 1 ByCol to_col
      from_row from_col
  else if (from_row <? to_row) && (from_col <? to_col) then
    while_clear (Z.to_nat (to_col - from_col)) board_object 1 1 ByCol to_col
      from_row from_col
  else if (from_row <? to_row) && (from_col >? to_col) then
    while_clear (Z.to_nat (from_col - to_col)) board_object 1 (-1) ByCol to_col
      from_row from_col
  else if (from_row >? to_row) && (from_col >? to_col) then
    while_clear (Z.to_nat (from_col - to_col)) board_object (-1) (-1) ByCol to_col
      from_row from_col
  else mret true.

End Piece.

(** ** The six subclasses: each overrides [is_valid_move] *)

Module King.

(** The code point of the one-character string returned. *)
Definition __repr__ (self : PieceObj) : Z :=
  if bool_decide (get_color self = WHITE) then 0x2654 else 0x265A.

Definition is_valid_move (self : PieceObj) (board_object : ChessBoard.t)
    (turn : Color) (from_row from_col to_row to_col : Z) : M bool :=
  ok ← Piece.is_valid_move self board_object turn from_row from_col to_row to_col;
  if negb ok then mret false
  else if (Z.abs (to_col - from_col) >? 1) || (Z.abs (to_row - from_row) >? 1)
  then mret false
  else mret true.

End King.

Module Rook.

(** The code point of the one-character string returned. *)
Definition __repr__ (self : PieceObj) : Z :=
  if bool_decide (get_color self = WHITE) then 0x2656 else 0x265C.

Definition is_valid_move (self : PieceObj) (board_object : ChessBoard.t)
    (turn : Color) (from_row from_col to_row to_col : Z) : M bool :=
  ok ← Piece.is_valid_move self board_object turn from_row from_col to_row to_col;
  if negb ok then mret false
  else if to_row =? from_row then
    clear ← Piece.check_horizontal_path board_object from_row from_col to_col;
    if negb clear then mret false else mret true
  else if to_col =? from_col then
    clear ← Piece.check_vertical_path board_object from_row from_col to_row;
    if negb clear then mret false else mret true
  else mret false.

End Rook.

Module Bishop.

(** The code point of the one-character string returned. *)
Definition __repr__ (self : PieceObj) : Z :=
  if bool_decide (get_color self = WHITE) then 0x2657 else 0x265D.

Definition is_valid_move (self : PieceObj) (board_object : ChessBoard.t)
    (turn : Color) (from_row from_col to_row to_col : Z) : M bool :=
  ok ← Piece.is_valid_move self board_object turn from_row from_col to_row to_col;
  if negb ok then mret false
  else if Z.abs (to_col - from_col) =? Z.abs (to_row - from_row) then
    clear ← Piece.check_diagonal_path board_object from_row from_col to_row to_col;
    if negb clear then mret false else mret true
  else mret false.

End Bishop.

Module Queen.

(** The code point of the one-character string returned. *)
Definition __repr__ (self : PieceObj) : Z :=
  if bool_decide (get_color self = WHITE) then 0x2655 else 0x265B.

Definition is_valid_move (self : PieceObj) (board_object : ChessBoard.t)
    (turn : Color) (from_row from_col to_row to_col : Z) : M bool :=
  ok ← Piece.is_valid_move self board_object turn from_row from_col to_row to_col;
  if negb ok then mret false
  else if to_row =? from_row then
    clear ← Piece.check_horizontal_path board_object from_row from_col to_col;
    if negb clear then mret false else mret true
  else if to_col =? from_col then
    clear ← Piece.check_vertical_path board_object from_row from_col to_row;
    if negb clear then mret false else mret true
  else if Z.abs (to_col - from_col) =? Z.abs (to_row - from_row) then
    clear ← Piece.check_diagonal_path board_object from_row from_col to_row to_col;
    if negb clear then mret false else mret true
  else mret false.

End Queen.

Module Knight.

(** The code point of the one-character string returned. *)
Definition __repr__ (self : PieceObj) : Z :=
  if bool_decide (get_color self = WHITE) then 0x2658 else 0x265E.

Definition is_valid_move (self : PieceObj) (board_object : ChessBoard.t)
    (turn : Color) (from_row from_col to_row to_col : Z) : M bool :=
  ok ← Piece.is_valid_move self board_object turn from_row from_col to_row to_col;
  if negb ok then mret false
  else if (Z.abs (to_row - from_row) =? 1) && (Z.abs (to_col - from_col) =? 2)
  then mret true
  else if (Z.abs (to_row - from_row) =? 2) && (Z.abs (to_col - from_col) =? 1)
  then mret true
  else mret false.

End Knight.

Module Pawn.

(** The code point of the one-character string returned. *)
Definition __repr__ (self : PieceObj) : Z :=
  if bool_decide (get_color self = WHITE) then 0x2659 else 0x265F.

Definition is_valid_move (self : PieceObj) (board_object : ChessBoard.t)
    (turn : Color) (from_row from_col to_row to_col : Z) : M bool :=
  ok ← Piece.is_valid_move self board_object turn from_row from_col to_row to_col;
  if negb ok then mret false
  else
    match turn with
    | BLACK =>
        (* move down one space *)
        if (from_row + 1 =? to_row) && (from_col =? to_col) then
          p ← ChessBoard.get_piece_at board_object to_row to_col;
          if bool_decide (p ≠ None) then mret false else mret true
        (* move down 2 spaces if it's the first move *)
        else if (from_row =? 1) && (to_row =? 3) && (from_col =? to_col) then
          p ← ChessBoard.get_piece_at board_object (from_row + 1) to_col;
          if bool_decide (p ≠ None) then mret false
          else
            q ← ChessBoard.get_piece_at board_object to_row to_col;
            if bool_decide (q ≠ None) then mret false else mret true
        (* move down diagonally 1 space *)
        else if (from_row + 1 =? to_row) && (from_col + 1 =? to_col)
                || (from_row + 1 =? to_row) && (from_col - 1 =? to_col) then
          p ← ChessBoard.get_piece_at board_object to_row to_col;
          if bool_decide (p = None) then mret false else mret true
        else mret false
    | WHITE =>
        (* move up one space *)
        if (from_row - 1 =? to_row) && (from_col =? to_col) then
          p ← ChessBoard.get_piece_at board_object to_row to_col;
          if bool_decide (p ≠ None) then mret false else mret true
        (* move up 2 spaces if it's the first move *)
        else if (from_row =? 6) && (to_row =? 4) && (from_col =? to_col) then
          p ← ChessBoard.get_piece_at board_object (from_row - 1) to_col;
          if bool_decide (p ≠ None) then mret false
          else
            q ← ChessBoard.get_piece_at board_object to_row to_col;
            if bool_decide (q ≠ None) then mret false else mret true
        (* move up diagonally 1 space *)
        else if (from_row - 1 =? to_row) && (from_col + 1 =? to_col)
                || (from_row - 1 =? to_row) && (from_col - 1 =? to_col) then
          p ← ChessBoard.get_piece_at board_object to_row to_col;
          if bool_decide (p = None) then mret false else mret true
        else mret false
    end.

End Pawn.

(** Method resolution: [piece.is_valid_move(...)] runs the override of the
    piece's class. *)
Definition is_valid_move (piece : PieceObj) :
    ChessBoard.t → Color → Z → Z → Z → Z → M bool :=
  match class_name piece with
  | King => King.is_valid_move piece
  | Queen => Queen.is_valid_move piece
  | Rook => Rook.is_valid_move piece
  | Bishop => Bishop.is_valid_move piece
  | Knight => Knight.is_valid_move piece
  | Pawn => Pawn.is_valid_move piece
  end.

(** [repr(piece)], by the same resolution. *)
Definition repr (piece : PieceObj) : Z :=
  match class_name piece with
  | King => King.__repr__ piece
  | Queen => Queen.__repr__ piece
  | Rook => Rook.__repr__ piece
  | Bishop => Bishop.__repr__ piece
  | Knight => Knight.__repr__ piece
  | Pawn => Pawn.__repr__ piece
  end.

(** ** class ChessVar *)

Module ChessVar.

Record t : Type := mk {
  _game_board : ChessBoard.t;
  _player_turn : Color;
  _game_state : GameState
}.

Definition __init__ : t := mk ChessBoard.__init__ WHITE UNFINISHED.

Definition set_player_turn (self : t) : t :=
  if bool_decide (_player_turn self = WHITE)
  then mk (_game_board self) BLACK (_game_state self)
  else mk (_game_board self) WHITE (_game_state self).

Definition get_game_state (self : t) : GameState := _game_state self.

Definition set_game_state (self : t) : M t :=
  white_pieces ← lift (dict_getitem
    (ChessBoard.get_current_pieces_on_board (_game_board self)) WHITE);
  let self :=
    if zero_in_values white_pieces
    then mk (_game_board self) (_player_turn self) BLACK_WON else self in
  black_pieces ← lift (dict_getitem
    (ChessBoard.get_current_pieces_on_board (_game_board self)) BLACK);
  let self :=
    if zero_in_values black_pieces
    then mk (_game_board self) (_player_turn self) WHITE_WON else self in
  mret self.

Definition valid_letters : list string :=
  ["A"; "B"; "C"; "D"; "E"; "F"; "G"; "H"]%string.
Definition valid_numbers : list string :=
  ["1"; "2"; "3"; "4"; "5"; "6"; "7"; "8"]%string.

(** The condition tested on each square:
    [len(s) != 2 or s[0].upper() not in valid_letters
     or s[1] not in valid_numbers], evaluated left to right. *)
Definition malformed (square : string) : M bool :=
  if negb (Nat.eqb (String.length square) 2) then mret true
  else
    c0 ← lift (str_getitem square 0);
    if negb (str_in (upper c0) valid_letters) then mret true
    else
      c1 ← lift (str_getitem square 1);
      mret (negb (str_in c1 valid_numbers)).

Definition is_valid_input (from_square to_square : string) : M bool :=
  if String.eqb from_square to_square then mret false
  else
    bad ← malformed from_square;
    if (bad : bool) then mret false
    else
      bad ← malformed to_square;
      if (bad : bool) then mret false else mret true.

Definition letter_to_index : gmap string Z :=
  list_to_map [("A", 0); ("B", 1); ("C", 2); ("D", 3);
               ("E", 4); ("F", 5); ("G", 6); ("H", 7)]%string.
Definition number_to_index : gmap string Z :=
  list_to_map [("8", 0); ("7", 1); ("6", 2); ("5", 3);
               ("4", 4); ("3", 5); ("2", 6); ("1", 7)]%string.

Definition algebraic_to_indices (square : string) : M (Z * Z) :=
  c0 ← lift (str_getitem square 0);
  col_index ← lift (dict_getitem letter_to_index (upper c0));
  c1 ← lift (str_getitem square 1);
  row_index ← lift (dict_getitem number_to_index c1);
  mret (row_index, col_index).

(** Shows the board, then the turn or the winner. *)
Definition display_board_and_game_status (self : t) : M unit :=
  ChessBoard.display_board (_game_board self).

Definition make_move (self : t) (from_square to_square : string) : M (bool * t) :=
  (* check if game has already been won *)
  if negb (bool_decide (_game_state self = UNFINISHED)) then mret (false, self)
  else
    (* check if inputs for both squares are valid *)
    valid ← is_valid_input from_square to_square;
    if negb valid then mret (false, self)
    else
      (* convert algebraic notation to indices *)
      '(from_row, from_col) ← algebraic_to_indices from_square;
      '(to_row, to_col) ← algebraic_to_indices to_square;
      (* check if the move is legal *)
      piece_to_move ← ChessBoard.get_piece_at (_game_board self) from_row from_col;
      match piece_to_move with
      | None => mret (false, self)
      | Some piece =>
          legal ← is_valid_move piece (_game_board self) (_player_turn self)
                    from_row from_col to_row to_col;
          if negb legal then mret (false, self)
          else
            (* move piece and update game data *)
            board ← ChessBoard.move_piece (_game_board self)
                      from_row from_col to_row to_col;
            let self := mk board (_player_turn self) (_game_state self) in
            self ← set_game_state self;
            let self := set_player_turn self in
            _ ← display_board_and_game_status self;
            mret (true, self)
      end.

End ChessVar.

(** A whole session: the game objects after each call of [make_move], in
    order. *)
Fixpoint play (self : ChessVar.t) (moves : list (string * string)) :
    M (list ChessVar.t) :=
  match moves with
  | [] => mret []
  | (from_square, to_square) :: rest =>
      '(applied, self') ← ChessVar.make_move self from_square to_square;
      later ← play self' rest;
      mret (self' :: later)
  end.

(** ** Vocabulary of the properties *)

(** The methods are rewritten with their equations below, not unfolded by
    [simpl]. *)
Arguments ChessBoard.get_piece_at : simpl never.
Arguments ChessBoard.move_piece : simpl never.
Arguments Piece.is_valid_move : simpl never.
Arguments Piece.check_horizontal_path : simpl never.
Arguments Piece.check_vertical_path : simpl never.
Arguments Piece.check_diagonal_path : simpl never.

(** Coordinates of the 8x8 grid. *)
Definition in_grid (row col : Z) : Prop :=
  0 <= row <= 7 ∧ 0 <= col <= 7.

Definition cell_in_grid (rc : Z * Z) : Prop := in_grid rc.1 rc.2.

(** Shape of a board object: eight rows of eight cells, and a count stored for
    every colour and kind. *)
Definition wf_grid (b : ChessBoard.t) : Prop :=
  length (ChessBoard._board b) = 8%nat ∧
  Forall (λ r, length r = 8%nat) (ChessBoard._board b).

Definition stored_count (b : ChessBoard.t) (c : Color) (k : Kind) : option Z :=
  ChessBoard._current_pieces_on_board b !! c ≫= (.!! k).

Definition wf_counts (b : ChessBoard.t) : Prop :=
  ∀ c k, is_Some (stored_count b c k).

Definition wf_board (b : ChessBoard.t) : Prop := wf_grid b ∧ wf_counts b.

(** The call neither raises nor exhausts its loop budget, and touches only
    cells of the grid. *)
Definition safe {A} (m : M A) : Prop :=
  (∃ a, value m = Ok a) ∧ Forall cell_in_grid (accesses m).

Definition empty_at (b : ChessBoard.t) (row col : Z) : Prop :=
  value (ChessBoard.get_piece_at b row col) = Ok None.

Definition piece_at (b : ChessBoard.t) (row col : Z) (p : PieceObj) : Prop :=
  value (ChessBoard.get_piece_at b row col) = Ok (Some p).

Definition other (c : Color) : Color :=
  match c with WHITE => BLACK | BLACK => WHITE end.

(** Number of pieces of a colour and kind on the grid. *)
Definition is_piece (c : Color) (k : Kind) (o : option PieceObj) : nat :=
  if bool_decide (o = Some (mkPiece k c)) then 1 else 0.

Definition pieces_on_grid (b : ChessBoard.t) (c : Color) (k : Kind) : nat :=
  sum_list_with (sum_list_with (is_piece c k)) (ChessBoard._board b).

(** The content of a cell of the grid, as a pure lookup. *)
Definition cell (b : ChessBoard.t) (row col : Z) : option PieceObj :=
  default None (ChessBoard._board b !! Z.to_nat row ≫= (.!! Z.to_nat col)).

Definition unit_step (d : Z) : Prop := d = -1 ∨ d = 0 ∨ d = 1.

(** The squares strictly between two squares of one rank, file or diagonal:
    [k] steps from the first towards the second, for [0 < k < distance]. *)
Definition between (from_row from_col to_row to_col row col : Z) : Prop :=
  ∃ k, 0 < k < Z.max (Z.abs (to_row - from_row)) (Z.abs (to_col - from_col)) ∧
       row = from_row + k * Z.sgn (to_row - from_row) ∧
       col = from_col + k * Z.sgn (to_col - from_col).

Definition path_clear (b : ChessBoard.t) (from_row from_col to_row to_col : Z) : Prop :=
  ∀ row col, between from_row from_col to_row to_col row col → empty_at b row col.

Definition on_line (from_row from_col to_row to_col : Z) : Prop :=
  to_row = from_row ∨ to_col = from_col ∨
  Z.abs (to_row - from_row) = Z.abs (to_col - from_col).

Definition base_ok (self : PieceObj) (b : ChessBoard.t) (turn : Color)
    (to_row to_col : Z) : bool :=
  bool_decide (get_color self = turn) &&
  match cell b to_row to_col with
  | Some q => negb (bool_decide (get_color q = turn))
  | None => true
  end.

(** The board after [self._board[row][col] = x], as a pure update. *)
Definition put (b : ChessBoard.t) (row col : Z) (x : option PieceObj) : ChessBoard.t :=
  match ChessBoard._board b !! Z.to_nat row with
  | Some r =>
      ChessBoard.mk (<[Z.to_nat row := <[Z.to_nat col := x]> r]> (ChessBoard._board b))
                    (ChessBoard._current_pieces_on_board b)
  | None => b
  end.

(** The board after the count of a captured piece, if any, went down by one. *)
Definition captured (b : ChessBoard.t) (o : option PieceObj) : ChessBoard.t :=
  match o with
  | None => b
  | Some q =>
      match ChessBoard._current_pieces_on_board b !! get_color q with
      | Some inner =>
          match inner !! class_name q with
          | Some n =>
              ChessBoard.mk (ChessBoard._board b)
                (<[get_color q := <[class_name q := n - 1]> inner]>
                   (ChessBoard._current_pieces_on_board b))
          | None => b
          end
      | None => b
      end
  end.

(** [move_piece] on grid coordinates: the count of the piece on the target
    square, if any, goes down, the source cell is copied to the target and
    then cleared. *)
Definition moved (b : ChessBoard.t) (fr fc tr tc : Z) : ChessBoard.t :=
  let b1 := captured b (cell b tr tc) in
  put (put b1 tr tc (cell b1 fr fc)) fr fc None.

Definition any_zero (b : ChessBoard.t) (c : Color) : Prop :=
  ∃ k, stored_count b c k = Some 0.

(** What the recomputed state is, in terms of the counts of the board. *)
Definition decided (b : ChessBoard.t) (before after : GameState) : Prop :=
  (any_zero b BLACK → after = WHITE_WON) ∧
  (¬ any_zero b BLACK → any_zero b WHITE → after = BLACK_WON) ∧
  (¬ any_zero b BLACK → ¬ any_zero b WHITE → after = before).

Definition counts_match (b : ChessBoard.t) : Prop :=
  ∀ c k, stored_count b c k = Some (Z.of_nat (pieces_on_grid b c k)).

Definition Inv (g : ChessVar.t) : Prop :=
  wf_grid (ChessVar._game_board g) ∧ counts_match (ChessVar._game_board g).

(** The game objects a program can hold: a fresh game, and what any call of
    [make_move] that returns leaves behind. *)
Inductive reachable : ChessVar.t → Prop :=
| reachable_init : reachable ChessVar.__init__
| reachable_make_move (g g' : ChessVar.t) (from_square to_square : string)
    (applied : bool) :
    reachable g →
    value (ChessVar.make_move g from_square to_square) = Ok (applied, g') →
    reachable g'.

(** The direction a colour's pawns advance in, and the rank they start on. *)
Definition forward (c : Color) : Z :=
  match c with BLACK => 1 | WHITE => -1 end.

Definition start_row (c : Color) : Z :=
  match c with BLACK => 1 | WHITE => 6 end.

Definition single_step (b : ChessBoard.t) (turn : Color) (fr fc tr tc : Z) : Prop :=
  tr = fr + forward turn ∧ tc = fc ∧ empty_at b tr tc.

Definition double_step (b : ChessBoard.t) (turn : Color) (fr fc tr tc : Z) : Prop :=
  fr = start_row turn ∧ tr = fr + 2 * forward turn ∧ tc = fc ∧
  empty_at b (fr + forward turn) fc ∧ empty_at b tr tc.

Definition diagonal_capture (b : ChessBoard.t) (turn : Color) (fr fc tr tc : Z) : Prop :=
  tr = fr + forward turn ∧ (tc = fc + 1 ∨ tc = fc - 1) ∧
  ∃ q, piece_at b tr tc q ∧ get_color q = other turn.

Definition exactly_one (P Q R : Prop) : Prop :=
  (P ∧ ¬ Q ∧ ¬ R) ∨ (¬ P ∧ Q ∧ ¬ R) ∨ (¬ P ∧ ¬ Q ∧ R).

Definition L_shape (fr fc tr tc : Z) : Prop :=
  (Z.abs (tr - fr) = 1 ∧ Z.abs (tc - fc) = 2) ∨
  (Z.abs (tr - fr) = 2 ∧ Z.abs (tc - fc) = 1).

Definition L_shapeb (fr fc tr tc : Z) : bool :=
  (Z.abs (tr - fr) =? 1) && (Z.abs (tc - fc) =? 2)
  || (Z.abs (tr - fr) =? 2) && (Z.abs (tc - fc) =? 1).

(** A list of states that starts unfinished, may switch once to a won state,
    and stays there. *)
Definition changes_at_most_once (states : list GameState) : Prop :=
  ∃ (n m : nat) (w : GameState),
    w ≠ UNFINISHED ∧ states = replicate n UNFINISHED ++ replicate m w.

(** The game after a list of moves from a fresh game. *)
Definition game_after (moves : list (string * string)) : ChessVar.t :=
  match value (play ChessVar.__init__ moves) with
  | Ok trace => default ChessVar.__init__ (last trace)
  | _ => ChessVar.__init__
  end.

(** White's bishop reaches g5 and then takes the queen on d8. *)
Definition queen_hunt : list (string * string) :=
  [("D2", "D4"); ("E7", "E5"); ("C1", "G5"); ("A7", "A6")]%string.

Definition before_capture : ChessVar.t := game_after queen_hunt.

Definition after_capture : ChessVar.t :=
  game_after (queen_hunt ++ [("G5", "D8")]%string).

(** The characters of a well-formed token: a file letter [A]..[H] or
    [a]..[h], and a rank digit [1]..[8]. *)
Definition file_letter (c : ascii) : Prop :=
  (65 ≤ nat_of_ascii c ≤ 72 ∨ 97 ≤ nat_of_ascii c ≤ 104)%nat.

Definition rank_digit (c : ascii) : Prop :=
  (49 ≤ nat_of_ascii c ≤ 56)%nat.

Definition file_letterb (c : ascii) : bool :=
  let n := nat_of_ascii c in
  ((65 <=? n) && (n <=? 72) || (97 <=? n) && (n <=? 104))%nat.

Definition rank_digitb (c : ascii) : bool :=
  let n := nat_of_ascii c in ((49 <=? n) && (n <=? 56))%nat.

Definition token (s : string) : Prop :=
  ∃ a d, s = String a (String d EmptyString) ∧ file_letter a ∧ rank_digit d.

(** The coordinates a file letter and a rank digit stand for. *)
Definition col_of (a : ascii) : Z := Z.of_nat (nat_of_ascii (upper_ascii a)) - 65.
Definition row_of (d : ascii) : Z := 56 - Z.of_nat (nat_of_ascii d).

(** The result is anything but an exhausted loop budget. *)
Definition ends {A} (m : M A) : Prop := value m ≠ OutOfFuel.

(** The state agrees with the counts, and a won game was won by the player
    who moved last. *)
Definition state_matches_counts (g : ChessVar.t) : Prop :=
  match ChessVar._game_state g with
  | UNFINISHED =>
      ¬ any_zero (ChessVar._game_board g) WHITE ∧
      ¬ any_zero (ChessVar._game_board g) BLACK
  | WHITE_WON =>
      any_zero (ChessVar._game_board g) BLACK ∧
      ¬ any_zero (ChessVar._game_board g) WHITE ∧
      ChessVar._player_turn g = BLACK
  | BLACK_WON =>
      any_zero (ChessVar._game_board g) WHITE ∧
      ¬ any_zero (ChessVar._game_board g) BLACK ∧
      ChessVar._player_turn g = WHITE
  end.

(** No count is above the one the board starts with. *)
Definition counts_bounded (b : ChessBoard.t) : Prop :=
  ∀ c k n, stored_count b c k = Some n →
           ∃ n0, ChessBoard.full_set !! k = Some n0 ∧ n <= n0.

(** No pawn stands behind the rank its colour starts on. *)
Definition pawns_in_front (b : ChessBoard.t) : Prop :=
  ∀ row col, in_grid row col →
    (cell b row col = Some (mkPiece Pawn WHITE) → row <= 6) ∧
    (cell b row col = Some (mkPiece Pawn BLACK) → 1 <= row).

(** ** The monad *)

Lemma value_bind {A B} (m : M A) (f : A → M B) :
  value (m ≫= f) =
  match value m with
  | Ok a => value (f a)
  | Raise e => Raise e
  | OutOfFuel => OutOfFuel
  end.
Proof. unfold mbind, M_mbind, M_bind. by destruct (value m). Qed.

Lemma accesses_bind {A B} (m : M A) (f : A → M B) :
  accesses (m ≫= f) =
  accesses m ++ match value m with Ok a => accesses (f a) | _ => [] end.
Proof.
  unfold mbind, M_mbind, M_bind.
  destruct (value m); simpl; by rewrite ?app_nil_r.
Qed.

Lemma bind_Ok_inv {A B} (m : M A) (f : A → M B) (b : B) :
  value (m ≫= f) = Ok b → ∃ a, value m = Ok a ∧ value (f a) = Ok b.
Proof. rewrite value_bind. destruct (value m); [eauto | done | done]. Qed.

Lemma safe_ret {A} (a : A) : safe (mret a : M A).
Proof. split; [by exists a | constructor]. Qed.

Lemma safe_bind {A B} (m : M A) (f : A → M B) :
  safe m → (∀ a, value m = Ok a → safe (f a)) → safe (m ≫= f).
Proof.
  intros [[a Ha] Hacc] Hf. destruct (Hf a Ha) as [[b Hb] Hacc'].
  split.
  - exists b. by rewrite value_bind, Ha.
  - rewrite accesses_bind, Ha. by apply Forall_app.
Qed.

Lemma bind_mkM_Ok {A B} (l : list (Z * Z)) (a : A) (f : A → M B) :
  mkM l (Ok a) ≫= f = mkM (l ++ accesses (f a)) (value (f a)).
Proof. reflexivity. Qed.

Lemma bind_ret {A B} (a : A) (f : A → M B) : mret a ≫= f = f a.
Proof. unfold mret, M_mret, M_ret. rewrite bind_mkM_Ok. by destruct (f a). Qed.

Lemma safe_mkM_cons {A} (rc : Z * Z) (m : M A) :
  cell_in_grid rc → safe m → safe (mkM (rc :: accesses m) (value m)).
Proof. intros Hrc [Hv Hacc]. split; simpl; [done | by constructor]. Qed.

Ltac msimpl :=
  repeat first
    [ rewrite bind_mkM_Ok
    | progress (cbn [accesses value app mret M_mret M_ret negb]) ].

(** ** Reading and writing the grid *)

Lemma norm_index_in_range (len : nat) (i : Z) :
  0 <= i < Z.of_nat len → norm_index len i = Some (Z.to_nat i).
Proof.
  intros Hi. unfold norm_index.
  destruct (Z.leb_spec 0 i), (Z.ltb_spec i (Z.of_nat len)); simpl; (done || lia).
Qed.

Lemma list_getitem_in_range {A} (l : list A) (i : Z) :
  0 <= i < Z.of_nat (length l) → ∃ x, l !! Z.to_nat i = Some x ∧ list_getitem l i = Ok x.
Proof.
  intros Hi. unfold list_getitem. rewrite norm_index_in_range by done.
  destruct (lookup_lt_is_Some_2 l (Z.to_nat i)) as [x Hx]; [lia|].
  exists x. by rewrite Hx.
Qed.

Lemma wf_grid_row (b : ChessBoard.t) (row : Z) :
  wf_grid b → 0 <= row <= 7 →
  ∃ r, ChessBoard._board b !! Z.to_nat row = Some r ∧ length r = 8%nat ∧
       list_getitem (ChessBoard._board b) row = Ok r.
Proof.
  intros [Hlen Hrows] Hr.
  destruct (list_getitem_in_range (ChessBoard._board b) row) as (r & Hl & Hg); [lia|].
  exists r. split_and!; [done | | done].
  by eapply (Forall_lookup_1 _ _ _ _ Hrows).
Qed.

Lemma get_piece_at_in_grid (b : ChessBoard.t) (row col : Z) :
  wf_grid b → in_grid row col →
  ChessBoard.get_piece_at b row col = mkM [(row, col)] (Ok (cell b row col)).
Proof.
  intros Hwf [Hr Hc].
  destruct (wf_grid_row b row Hwf Hr) as (r & Hl & Hlen & Hg).
  destruct (list_getitem_in_range r col) as (x & Hx & Hgx); [lia|].
  unfold ChessBoard.get_piece_at, cell, mbind, M_mbind, M_bind, touch, lift.
  simpl. rewrite Hg. simpl. rewrite Hgx, Hl. simpl. by rewrite Hx.
Qed.

Lemma safe_get_piece_at (b : ChessBoard.t) (row col : Z) :
  wf_grid b → in_grid row col → safe (ChessBoard.get_piece_at b row col).
Proof.
  intros Hwf Hin. rewrite get_piece_at_in_grid by done.
  split; simpl; [by eexists | by apply Forall_singleton].
Qed.

(** ** The path loops *)

Lemma while_clear_S (fuel : nat) (b : ChessBoard.t) (dr dc : Z) (axis : Axis)
    (target row col : Z) :
  Piece.while_clear (S fuel) b dr dc axis target row col =
  if negb (along axis (row + dr) (col + dc) =? target) then
    p ← ChessBoard.get_piece_at b (row + dr) (col + dc);
    match p with
    | None => Piece.while_clear fuel b dr dc axis target (row + dr) (col + dc)
    | Some _ => mret false
    end
  else mret true.
Proof. reflexivity. Qed.

Lemma along_add (a : Axis) (r c dr dc : Z) :
  along a (r + dr) (c + dc) = along a r c + along a dr dc.
Proof. by destruct a. Qed.

(** From [(row, col)], with the target [n >= 1] steps away along the compared
    axis and the end square on the grid, the loop runs to its end within [n]
    units of fuel, stays on the grid, and leaves normally exactly when the
    [n - 1] squares before the end square are empty. *)
Lemma while_clear_spec (b : ChessBoard.t) (dr dc : Z) (axis : Axis) (target : Z) :
  wf_grid b → unit_step dr → unit_step dc → along axis dr dc ≠ 0 →
  ∀ (fuel : nat) (n row col : Z),
    1 <= n <= Z.of_nat fuel →
    in_grid row col → in_grid (row + n * dr) (col + n * dc) →
    along axis row col + n * along axis dr dc = target →
    let m := Piece.while_clear fuel b dr dc axis target row col in
    safe m ∧
    (value m = Ok true ∨ value m = Ok false) ∧
    (value m = Ok true ↔
     ∀ k, 1 <= k < n → cell b (row + k * dr) (col + k * dc) = None).
Proof.
  intros Hwf Hdr Hdc Hax fuel.
  induction fuel as [|fuel IH]; intros n row col Hn Hin Hend Htarget; [lia|].
  cbv zeta. rewrite while_clear_S, along_add.
  destruct (Z.eqb_spec (along axis row col + along axis dr dc) target) as [Heq|Hne];
    cbv [negb].
  - (* the next square is the target: the loop ends *)
    assert (n = 1) as -> by nia.
    split_and!; [apply safe_ret | by left | ].
    split; [intros _ k Hk; lia | done].
  - assert (2 <= n) as Hn2 by (destruct (decide (n = 1)) as [->|]; [lia | lia]).
    assert (in_grid (row + dr) (col + dc)) as Hnext.
    { unfold in_grid in *.
      destruct Hdr as [->|[->| ->]], Hdc as [->|[->| ->]]; lia. }
    rewrite get_piece_at_in_grid, bind_mkM_Ok by done.
    destruct (cell b (row + dr) (col + dc)) as [q|] eqn:Hcell.
    + (* blocked *)
      split_and!.
      * split; simpl; [by eexists | by apply Forall_singleton].
      * by right.
      * split; [done|]. intros Hall. specialize (Hall 1 ltac:(lia)).
        rewrite !Z.mul_1_l in Hall. congruence.
    + destruct (IH (n - 1) (row + dr) (col + dc)) as (Hsafe & Hbool & Hiff).
      * lia.
      * done.
      * by replace (row + dr + (n - 1) * dr) with (row + n * dr) by lia;
          replace (col + dc + (n - 1) * dc) with (col + n * dc) by lia.
      * rewrite along_add. lia.
      * split_and!.
        -- by apply safe_mkM_cons.
        -- done.
        -- rewrite Hiff. split; intros Hall k Hk.
           ++ destruct (decide (k = 1)) as [->|].
              ** by rewrite !Z.mul_1_l.
              ** specialize (Hall (k - 1) ltac:(lia)).
                 by replace (row + dr + (k - 1) * dr) with (row + k * dr) in Hall by lia;
                   replace (col + dc + (k - 1) * dc) with (col + k * dc) in Hall by lia.
           ++ specialize (Hall (k + 1) ltac:(lia)).
              by replace (row + (k + 1) * dr) with (row + dr + k * dr) in Hall by lia;
                replace (col + (k + 1) * dc) with (col + dc + k * dc) in Hall by lia.
Qed.

(** ** The three path checks *)

Lemma empty_at_cell (b : ChessBoard.t) (row col : Z) :
  wf_grid b → in_grid row col → empty_at b row col ↔ cell b row col = None.
Proof.
  intros Hwf Hin. unfold empty_at. rewrite get_piece_at_in_grid by done.
  simpl. split; congruence.
Qed.

Lemma piece_at_cell (b : ChessBoard.t) (row col : Z) (p : PieceObj) :
  wf_grid b → in_grid row col → piece_at b row col p ↔ cell b row col = Some p.
Proof.
  intros Hwf Hin. unfold piece_at. rewrite get_piece_at_in_grid by done.
  simpl. split; congruence.
Qed.

Ltac zbool :=
  repeat match goal with
  | |- context [?a >? ?b] => rewrite (Z.gtb_ltb a b)
  | |- context [?a <? ?b] => destruct (Z.ltb_spec a b)
  | |- context [?a <=? ?b] => destruct (Z.leb_spec a b)
  | |- context [?a =? ?b] => destruct (Z.eqb_spec a b)
  end.

Lemma path_clear_steps (b : ChessBoard.t) (fr fc tr tc dr dc n : Z) :
  wf_grid b → in_grid fr fc → in_grid tr tc → on_line fr fc tr tc →
  dr = Z.sgn (tr - fr) → dc = Z.sgn (tc - fc) →
  n = Z.max (Z.abs (tr - fr)) (Z.abs (tc - fc)) →
  path_clear b fr fc tr tc ↔
  ∀ k, 1 <= k < n → cell b (fr + k * dr) (fc + k * dc) = None.
Proof.
  intros Hwf Hf Ht Hline -> -> ->.
  assert (∀ k, 0 < k < Z.max (Z.abs (tr - fr)) (Z.abs (tc - fc)) →
               in_grid (fr + k * Z.sgn (tr - fr)) (fc + k * Z.sgn (tc - fc))) as Hin.
  { intros k Hk. unfold in_grid, on_line in *.
    destruct (Z.sgn_spec (tr - fr)) as [[? ->]|[[? ->]|[? ->]]],
             (Z.sgn_spec (tc - fc)) as [[? ->]|[[? ->]|[? ->]]]; lia. }
  unfold path_clear, between. split.
  - intros Hclear k Hk. apply empty_at_cell; [done | apply Hin; lia |].
    apply Hclear. exists k. split_and!; (done || lia).
  - intros Hall row col (k & Hk & -> & ->).
    apply empty_at_cell; [done | by apply Hin |]. apply Hall. lia.
Qed.

(** What the checks need of a loop started with [n] units of fuel for a
    target [n] steps away. *)
Lemma while_clear_line (b : ChessBoard.t) (fr fc tr tc dr dc n : Z) (axis : Axis) :
  wf_grid b → in_grid fr fc → in_grid tr tc → on_line fr fc tr tc →
  dr = Z.sgn (tr - fr) → dc = Z.sgn (tc - fc) →
  n = Z.max (Z.abs (tr - fr)) (Z.abs (tc - fc)) →
  along axis (tr - fr) (tc - fc) ≠ 0 →
  let m := Piece.while_clear (Z.to_nat n) b dr dc axis (along axis tr tc) fr fc in
  safe m ∧ (value m = Ok true ∨ value m = Ok false) ∧
  (value m = Ok true ↔ path_clear b fr fc tr tc).
Proof.
  intros Hwf Hf Ht Hline Hdr Hdc Hn Hax. cbv zeta.
  rewrite (path_clear_steps b fr fc tr tc dr dc n) by done.
  assert (tr = fr + n * dr ∧ tc = fc + n * dc ∧ 1 <= n) as (Hr & Hc & Hn1).
  { subst dr dc n. unfold on_line in Hline.
    destruct axis; simpl in Hax;
      destruct (Z.sgn_spec (tr - fr)) as [[? ->]|[[? ->]|[? ->]]],
               (Z.sgn_spec (tc - fc)) as [[? ->]|[[? ->]|[? ->]]]; lia. }
  apply while_clear_spec; try done.
  - subst dr. destruct (Z.sgn_spec (tr - fr)) as [[? ->]|[[? ->]|[? ->]]];
      unfold unit_step; lia.
  - subst dc. destruct (Z.sgn_spec (tc - fc)) as [[? ->]|[[? ->]|[? ->]]];
      unfold unit_step; lia.
  - subst dr dc. destruct axis; simpl in *; lia.
  - lia.
  - by rewrite <- Hr, <- Hc.
  - destruct axis; simpl; lia.
Qed.

Lemma check_horizontal_path_spec (b : ChessBoard.t) (fr fc tc : Z) :
  wf_grid b → in_grid fr fc → in_grid fr tc →
  let m := Piece.check_horizontal_path b fr fc tc in
  safe m ∧ (value m = Ok true ∨ value m = Ok false) ∧
  (value m = Ok true ↔ path_clear b fr fc fr tc).
Proof.
  intros Hwf Hf Ht. unfold Piece.check_horizontal_path.
  zbool.
  - apply (while_clear_line b fr fc fr tc 0 1 (tc - fc) ByCol);
      unfold on_line; simpl; try done; lia.
  - apply (while_clear_line b fr fc fr tc 0 (-1) (fc - tc) ByCol);
      unfold on_line; simpl; try done; lia.
  - split_and!; [apply safe_ret | by left |].
    split; [|done]. intros _ row col (k & Hk & _). lia.
Qed.

Lemma check_vertical_path_spec (b : ChessBoard.t) (fr fc tr : Z) :
  wf_grid b → in_grid fr fc → in_grid tr fc →
  let m := Piece.check_vertical_path b fr fc tr in
  safe m ∧ (value m = Ok true ∨ value m = Ok false) ∧
  (value m = Ok true ↔ path_clear b fr fc tr fc).
Proof.
  intros Hwf Hf Ht. unfold Piece.check_vertical_path.
  zbool.
  - apply (while_clear_line b fr fc tr fc 1 0 (tr - fr) ByRow);
      unfold on_line; simpl; try done; lia.
  - apply (while_clear_line b fr fc tr fc (-1) 0 (fr - tr) ByRow);
      unfold on_line; simpl; try done; lia.
  - split_and!; [apply safe_ret | by left |].
    split; [|done]. intros _ row col (k & Hk & _). lia.
Qed.

Lemma check_diagonal_path_spec (b : ChessBoard.t) (fr fc tr tc : Z) :
  wf_grid b → in_grid fr fc → in_grid tr tc →
  Z.abs (tr - fr) = Z.abs (tc - fc) →
  let m := Piece.check_diagonal_path b fr fc tr tc in
  safe m ∧ (value m = Ok true ∨ value m = Ok false) ∧
  (value m = Ok true ↔ path_clear b fr fc tr tc).
Proof.
  intros Hwf Hf Ht Hdiag. unfold Piece.check_diagonal_path.
  zbool; simpl; try lia;
    first
      [ apply (while_clear_line b fr fc tr tc _ _ _ ByCol);
          unfold on_line; simpl; try done; lia
      | split_and!; [apply safe_ret | by left |];
        split; [|done]; intros _ row col (k & Hk & _); lia ].
Qed.

(** ** Showing the board *)

Lemma safe_for_each {A} (l : list A) (body : A → M unit) :
  (∀ x, x ∈ l → safe (body x)) → safe (for_each l body).
Proof.
  induction l as [|x l IH]; intros Hbody; simpl; [apply safe_ret|].
  apply safe_bind; [apply Hbody; left|].
  intros _ _. apply IH. intros y Hy. apply Hbody. by right.
Qed.

Lemma safe_display_board (b : ChessBoard.t) :
  wf_grid b → safe (ChessBoard.display_board b).
Proof.
  intros Hwf. unfold ChessBoard.display_board.
  apply safe_for_each. intros row Hrow%elem_of_seqZ.
  apply safe_for_each. intros col Hcol%elem_of_seqZ.
  assert (in_grid row col) as Hin by (unfold in_grid; lia).
  apply safe_bind; [by apply safe_get_piece_at|].
  intros [p|] _; [|apply safe_ret].
  apply safe_bind; [by apply safe_get_piece_at|].
  intros _ _. apply safe_ret.
Qed.

(** ** The shared colour check *)

Lemma Piece_is_valid_move_eq (self : PieceObj) (b : ChessBoard.t) (turn : Color)
    (fr fc tr tc : Z) :
  wf_grid b → in_grid tr tc →
  Piece.is_valid_move self b turn fr fc tr tc =
  mkM (if bool_decide (get_color self = turn) then [(tr, tc)] else [])
      (Ok (base_ok self b turn tr tc)).
Proof.
  intros Hwf Hin. unfold Piece.is_valid_move, base_ok.
  case_bool_decide; cbn [negb andb]; [|done].
  rewrite get_piece_at_in_grid, bind_mkM_Ok by done.
  destruct (cell b tr tc) as [q|]; [|done].
  by case_bool_decide.
Qed.

Lemma safe_Piece_is_valid_move (self : PieceObj) (b : ChessBoard.t) (turn : Color)
    (fr fc tr tc : Z) :
  wf_grid b → in_grid tr tc → safe (Piece.is_valid_move self b turn fr fc tr tc).
Proof.
  intros Hwf Hin. rewrite Piece_is_valid_move_eq by done.
  split; simpl; [by eexists|].
  case_bool_decide; [by apply Forall_singleton | constructor].
Qed.

Lemma base_ok_true (self : PieceObj) (b : ChessBoard.t) (turn : Color) (tr tc : Z) :
  base_ok self b turn tr tc = true ↔
  get_color self = turn ∧ ∀ q, cell b tr tc = Some q → get_color q ≠ turn.
Proof.
  unfold base_ok. rewrite andb_true_iff, bool_decide_eq_true.
  destruct (cell b tr tc) as [q|].
  - rewrite negb_true_iff, bool_decide_eq_false. split.
    + intros [? ?]. split; [done|]. by intros ? [= <-].
    + intros [? Hq]. split; [done|]. by apply Hq.
  - split; [intros [? _] | intros [? _]]; done.
Qed.

(** A legal move never ends on its own starting square: the piece found
    there has the colour of the player to move. *)
Lemma base_ok_distinct (self : PieceObj) (b : ChessBoard.t) (turn : Color)
    (fr fc tr tc : Z) :
  cell b fr fc = Some self → base_ok self b turn tr tc = true →
  (fr, fc) ≠ (tr, tc).
Proof.
  intros Hfrom [Hcol Hto]%base_ok_true [= <- <-].
  by apply (Hto self).
Qed.

(** Every override starts with the base check and gives up when it fails. *)
Lemma is_valid_move_base (p : PieceObj) (b : ChessBoard.t) (turn : Color)
    (fr fc tr tc : Z) :
  value (is_valid_move p b turn fr fc tr tc) = Ok true →
  value (Piece.is_valid_move p b turn fr fc tr tc) = Ok true.
Proof.
  unfold is_valid_move, King.is_valid_move, Queen.is_valid_move,
    Rook.is_valid_move, Bishop.is_valid_move, Knight.is_valid_move,
    Pawn.is_valid_move.
  destruct (class_name p); intros ([] & Hbase & Hrest)%bind_Ok_inv;
    done.
Qed.

(** ** No override raises, and each reads the grid only inside the board *)

Lemma safe_if {A} (c : bool) (m1 m2 : M A) :
  (c = true → safe m1) → (c = false → safe m2) → safe (if c then m1 else m2).
Proof. destruct c; auto. Qed.

Lemma safe_checked (m : M bool) :
  safe m → safe (clear ← m; if negb clear then mret false else mret true).
Proof.
  intros Hm. apply safe_bind; [done|]. intros [] _; apply safe_ret.
Qed.

Lemma safe_get_then {A} (b : ChessBoard.t) (row col : Z)
    (f : option PieceObj → M A) :
  wf_grid b → in_grid row col → (∀ p, safe (f p)) →
  safe (ChessBoard.get_piece_at b row col ≫= f).
Proof.
  intros Hwf Hin Hf. apply safe_bind; [by apply safe_get_piece_at | auto].
Qed.

Lemma safe_King (p : PieceObj) (b : ChessBoard.t) (turn : Color) (fr fc tr tc : Z) :
  wf_grid b → in_grid fr fc → in_grid tr tc →
  safe (King.is_valid_move p b turn fr fc tr tc).
Proof.
  intros Hwf Hf Ht. unfold King.is_valid_move.
  apply safe_bind; [by apply safe_Piece_is_valid_move|].
  intros [] _; simpl; [|apply safe_ret].
  apply safe_if; intros _; apply safe_ret.
Qed.

Lemma safe_Knight (p : PieceObj) (b : ChessBoard.t) (turn : Color) (fr fc tr tc : Z) :
  wf_grid b → in_grid fr fc → in_grid tr tc →
  safe (Knight.is_valid_move p b turn fr fc tr tc).
Proof.
  intros Hwf Hf Ht. unfold Knight.is_valid_move.
  apply safe_bind; [by apply safe_Piece_is_valid_move|].
  intros [] _; simpl; [|apply safe_ret].
  repeat (apply safe_if; intros _); apply safe_ret.
Qed.

Lemma safe_Rook (p : PieceObj) (b : ChessBoard.t) (turn : Color) (fr fc tr tc : Z) :
  wf_grid b → in_grid fr fc → in_grid tr tc →
  safe (Rook.is_valid_move p b turn fr fc tr tc).
Proof.
  intros Hwf Hf Ht. unfold Rook.is_valid_move.
  apply safe_bind; [by apply safe_Piece_is_valid_move|].
  intros [] _; simpl; [|apply safe_ret].
  apply safe_if; [intros ->%Z.eqb_eq | intros _].
  { apply safe_checked. by apply check_horizontal_path_spec. }
  apply safe_if; [intros ->%Z.eqb_eq | intros _; apply safe_ret].
  apply safe_checked. by apply check_vertical_path_spec.
Qed.

Lemma safe_Bishop (p : PieceObj) (b : ChessBoard.t) (turn : Color) (fr fc tr tc : Z) :
  wf_grid b → in_grid fr fc → in_grid tr tc →
  safe (Bishop.is_valid_move p b turn fr fc tr tc).
Proof.
  intros Hwf Hf Ht. unfold Bishop.is_valid_move.
  apply safe_bind; [by apply safe_Piece_is_valid_move|].
  intros [] _; simpl; [|apply safe_ret].
  apply safe_if; [intros Hd%Z.eqb_eq | intros _; apply safe_ret].
  apply safe_checked. by apply check_diagonal_path_spec.
Qed.

Lemma safe_Queen (p : PieceObj) (b : ChessBoard.t) (turn : Color) (fr fc tr tc : Z) :
  wf_grid b → in_grid fr fc → in_grid tr tc →
  safe (Queen.is_valid_move p b turn fr fc tr tc).
Proof.
  intros Hwf Hf Ht. unfold Queen.is_valid_move.
  apply safe_bind; [by apply safe_Piece_is_valid_move|].
  intros [] _; simpl; [|apply safe_ret].
  apply safe_if; [intros ->%Z.eqb_eq | intros _].
  { apply safe_checked. by apply check_horizontal_path_spec. }
  apply safe_if; [intros ->%Z.eqb_eq | intros _].
  { apply safe_checked. by apply check_vertical_path_spec. }
  apply safe_if; [intros Hd%Z.eqb_eq | intros _; apply safe_ret].
  apply safe_checked. by apply check_diagonal_path_spec.
Qed.

Lemma safe_Pawn (p : PieceObj) (b : ChessBoard.t) (turn : Color) (fr fc tr tc : Z) :
  wf_grid b → in_grid fr fc → in_grid tr tc →
  safe (Pawn.is_valid_move p b turn fr fc tr tc).
Proof.
  intros Hwf Hf Ht. unfold Pawn.is_valid_move.
  apply safe_bind; [by apply safe_Piece_is_valid_move|].
  intros [] _; simpl; [|apply safe_ret].
  assert (∀ q : option PieceObj,
    safe (if bool_decide (q ≠ None) then mret false else mret true)) as Hret.
  { intros q. apply safe_if; intros _; apply safe_ret. }
  assert (∀ q : option PieceObj,
    safe (if bool_decide (q = None) then mret false else mret true)) as Hret'.
  { intros q. apply safe_if; intros _; apply safe_ret. }
  destruct turn.
  - apply safe_if; [intros _ | intros _]; [by apply safe_get_then|].
    apply safe_if; [intros Hc | intros _].
    { apply andb_true_iff in Hc as [[->%Z.eqb_eq ->%Z.eqb_eq]%andb_true_iff _].
      apply safe_get_then; [done | unfold in_grid in *; lia |].
      intros q. apply safe_if; intros _; [apply safe_ret|].
      by apply safe_get_then. }
    apply safe_if; intros _; [by apply safe_get_then | apply safe_ret].
  - apply safe_if; [intros _ | intros _]; [by apply safe_get_then|].
    apply safe_if; [intros Hc | intros _].
    { apply andb_true_iff in Hc as [[->%Z.eqb_eq ->%Z.eqb_eq]%andb_true_iff _].
      apply safe_get_then; [done | unfold in_grid in *; lia |].
      intros q. apply safe_if; intros _; [apply safe_ret|].
      by apply safe_get_then. }
    apply safe_if; intros _; [by apply safe_get_then | apply safe_ret].
Qed.

Lemma safe_is_valid_move (p : PieceObj) (b : ChessBoard.t) (turn : Color)
    (fr fc tr tc : Z) :
  wf_grid b → in_grid fr fc → in_grid tr tc →
  safe (is_valid_move p b turn fr fc tr tc).
Proof.
  intros Hwf Hf Ht. unfold is_valid_move.
  destruct (class_name p);
    auto using safe_King, safe_Queen, safe_Rook, safe_Bishop, safe_Knight, safe_Pawn.
Qed.

(** ** Writing a cell and capturing *)

Lemma list_setitem_in_range {A} (l : list A) (i : Z) (x : A) :
  0 <= i < Z.of_nat (length l) → list_setitem l i x = Ok (<[Z.to_nat i := x]> l).
Proof. intros Hi. unfold list_setitem. by rewrite norm_index_in_range. Qed.

Lemma set_piece_at_in_grid (b : ChessBoard.t) (row col : Z) (x : option PieceObj) :
  wf_grid b → in_grid row col →
  ChessBoard.set_piece_at b row col x = mkM [(row, col)] (Ok (put b row col x)).
Proof.
  intros Hwf [Hr Hc].
  destruct (wf_grid_row b row Hwf Hr) as (r & Hl & Hlen & Hg).
  unfold ChessBoard.set_piece_at, put, touch, lift.
  rewrite bind_mkM_Ok, Hg, bind_mkM_Ok.
  rewrite list_setitem_in_range, bind_mkM_Ok by lia.
  rewrite list_setitem_in_range, bind_mkM_Ok by (destruct Hwf; lia).
  by rewrite Hl.
Qed.

Lemma wf_grid_put (b : ChessBoard.t) (row col : Z) (x : option PieceObj) :
  wf_grid b → wf_grid (put b row col x).
Proof.
  intros [Hlen Hrows]. unfold put.
  destruct (ChessBoard._board b !! Z.to_nat row) as [r|] eqn:Hr; [|done].
  split; simpl.
  - by rewrite length_insert.
  - apply Forall_insert; [done|]. rewrite length_insert.
    by eapply (Forall_lookup_1 _ _ _ _ Hrows).
Qed.

Lemma counts_put (b : ChessBoard.t) (row col : Z) (x : option PieceObj) :
  ChessBoard._current_pieces_on_board (put b row col x) =
  ChessBoard._current_pieces_on_board b.
Proof. unfold put. by destruct (ChessBoard._board b !! Z.to_nat row). Qed.

Lemma cell_put (b : ChessBoard.t) (row col row' col' : Z) (x : option PieceObj) :
  wf_grid b → in_grid row col → in_grid row' col' →
  cell (put b row col x) row' col' =
  if decide ((row, col) = (row', col')) then x else cell b row' col'.
Proof.
  intros Hwf [Hr Hc] [Hr' Hc'].
  destruct (wf_grid_row b row Hwf Hr) as (r & Hl & Hlen & _).
  unfold put, cell. rewrite Hl. simpl.
  destruct (decide (Z.to_nat row = Z.to_nat row')) as [Heq|Hne].
  - rewrite <- Heq, list_lookup_insert_eq by (destruct Hwf; lia). simpl.
    destruct (decide (Z.to_nat col = Z.to_nat col')) as [Heq'|Hne'].
    + rewrite <- Heq', list_lookup_insert_eq by lia.
      rewrite decide_True; [done|]. f_equal; lia.
    + rewrite list_lookup_insert_ne by done.
      rewrite decide_False; [by rewrite Hl|]. intros [= ]. lia.
  - rewrite list_lookup_insert_ne by done.
    rewrite decide_False; [done|]. intros [= ]. lia.
Qed.

Lemma sum_list_with_insert {A} (f : A → nat) (l : list A) (i : nat) (x y : A) :
  l !! i = Some y →
  (sum_list_with f (<[i := x]> l) + f y = sum_list_with f l + f x)%nat.
Proof.
  revert i. induction l as [|a l IH]; intros [|i] Hl; simplify_eq/=.
  - lia.
  - specialize (IH i Hl). lia.
Qed.

Lemma pieces_put (b : ChessBoard.t) (row col : Z) (x : option PieceObj)
    (c : Color) (k : Kind) :
  wf_grid b → in_grid row col →
  (pieces_on_grid (put b row col x) c k + is_piece c k (cell b row col) =
   pieces_on_grid b c k + is_piece c k x)%nat.
Proof.
  intros Hwf [Hr Hc].
  destruct (wf_grid_row b row Hwf Hr) as (r & Hl & Hlen & _).
  destruct (lookup_lt_is_Some_2 r (Z.to_nat col)) as [y Hy]; [lia|].
  unfold pieces_on_grid, put, cell. rewrite Hl. simpl. rewrite Hy. simpl.
  pose proof (sum_list_with_insert (sum_list_with (is_piece c k))
    (ChessBoard._board b) (Z.to_nat row) (<[Z.to_nat col := x]> r) r Hl) as H1.
  pose proof (sum_list_with_insert (is_piece c k) r (Z.to_nat col) x y Hy) as H2.
  lia.
Qed.

Lemma remove_piece_from_board_eq (b : ChessBoard.t) (q : PieceObj) :
  wf_counts b →
  ChessBoard.remove_piece_from_board b (get_color q) (class_name q) =
  mkM [] (Ok (captured b (Some q))).
Proof.
  intros Hwf. destruct (Hwf (get_color q) (class_name q)) as [n Hn].
  unfold stored_count in Hn.
  unfold ChessBoard.remove_piece_from_board, captured, lift, dict_getitem.
  destruct (ChessBoard._current_pieces_on_board b !! get_color q) as [inner|];
    [|done].
  simpl in Hn. rewrite bind_mkM_Ok, Hn. by rewrite bind_mkM_Ok.
Qed.

Lemma stored_count_captured (b : ChessBoard.t) (q : PieceObj) (c : Color) (k : Kind) :
  wf_counts b →
  stored_count (captured b (Some q)) c k =
  if decide (c = get_color q ∧ k = class_name q)
  then (λ n, n - 1) <$> stored_count b c k
  else stored_count b c k.
Proof.
  intros Hwf. destruct (Hwf (get_color q) (class_name q)) as [n Hn].
  unfold stored_count in *. unfold captured.
  destruct (ChessBoard._current_pieces_on_board b !! get_color q)
    as [inner|] eqn:Hinner; [|done].
  simpl in Hn. rewrite Hn. simpl.
  destruct (decide (c = get_color q)) as [->|Hc].
  - rewrite lookup_insert_eq, Hinner. simpl.
    destruct (decide (k = class_name q)) as [->|Hk].
    + rewrite lookup_insert_eq, decide_True, Hn by done. done.
    + rewrite lookup_insert_ne by done.
      rewrite decide_False by (by intros [_ ?]). done.
  - rewrite lookup_insert_ne by done.
    rewrite decide_False by (by intros [? _]). done.
Qed.

Lemma wf_counts_captured (b : ChessBoard.t) (o : option PieceObj) :
  wf_counts b → wf_counts (captured b o).
Proof.
  intros Hwf. destruct o as [q|]; [|done].
  intros c k. rewrite stored_count_captured by done.
  destruct (Hwf c k) as [n Hn]. rewrite Hn. by case_decide.
Qed.

Lemma board_captured (b : ChessBoard.t) (o : option PieceObj) :
  ChessBoard._board (captured b o) = ChessBoard._board b.
Proof.
  destruct o as [q|]; [|done]. unfold captured.
  destruct (ChessBoard._current_pieces_on_board b !! get_color q) as [inner|];
    [|done].
  by destruct (inner !! class_name q).
Qed.

Lemma read_cell_then {A} (b : ChessBoard.t) (row col : Z)
    (f : option PieceObj → M A) :
  wf_grid b → in_grid row col →
  (_ ← touch row col;
   r ← lift (list_getitem (ChessBoard._board b) row);
   p ← lift (list_getitem r col);
   f p) =
  mkM ((row, col) :: accesses (f (cell b row col))) (value (f (cell b row col))).
Proof.
  intros Hwf [Hr Hc].
  destruct (wf_grid_row b row Hwf Hr) as (r & Hl & Hlen & Hg).
  destruct (list_getitem_in_range r col) as (x & Hx & Hgx); [lia|].
  unfold touch, lift, cell.
  rewrite bind_mkM_Ok, Hg, bind_mkM_Ok, Hgx, bind_mkM_Ok, Hl. simpl.
  by rewrite Hx.
Qed.

Lemma move_piece_eq (b : ChessBoard.t) (fr fc tr tc : Z) :
  wf_board b → in_grid fr fc → in_grid tr tc →
  ChessBoard.move_piece b fr fc tr tc =
  mkM [(tr, tc); (fr, fc); (tr, tc); (fr, fc)] (Ok (moved b fr fc tr tc)).
Proof.
  intros [Hwf Hcounts] Hf Ht.
  set (b1 := captured b (cell b tr tc)).
  assert (wf_grid b1) as Hwf1.
  { unfold wf_grid, b1. by rewrite board_captured. }
  assert (match cell b tr tc with
          | Some p => ChessBoard.remove_piece_from_board b (get_color p) (class_name p)
          | None => mret b
          end = mkM [] (Ok b1)) as Hcap.
  { unfold b1. destruct (cell b tr tc) as [q|]; [|done].
    by apply remove_piece_from_board_eq. }
  unfold ChessBoard.move_piece, moved. fold b1.
  rewrite read_cell_then by done.
  rewrite Hcap, bind_mkM_Ok.
  rewrite read_cell_then by done.
  rewrite set_piece_at_in_grid, bind_mkM_Ok by done.
  rewrite set_piece_at_in_grid by (try apply wf_grid_put; done).
  done.
Qed.

Lemma wf_board_moved (b : ChessBoard.t) (fr fc tr tc : Z) :
  wf_board b → wf_board (moved b fr fc tr tc).
Proof.
  intros [Hwf Hcounts]. unfold moved. split.
  - do 2 apply wf_grid_put. unfold wf_grid. by rewrite board_captured.
  - intros c k. unfold stored_count. rewrite !counts_put.
    by apply wf_counts_captured.
Qed.

Lemma cell_captured (b : ChessBoard.t) (o : option PieceObj) (row col : Z) :
  cell (captured b o) row col = cell b row col.
Proof. unfold cell. by rewrite board_captured. Qed.

Lemma stored_count_moved (b : ChessBoard.t) (fr fc tr tc : Z) (c : Color) (k : Kind) :
  stored_count (moved b fr fc tr tc) c k =
  stored_count (captured b (cell b tr tc)) c k.
Proof. unfold moved, stored_count. by rewrite !counts_put. Qed.

Lemma cell_moved (b : ChessBoard.t) (fr fc tr tc row col : Z) :
  wf_grid b → in_grid fr fc → in_grid tr tc → in_grid row col →
  (fr, fc) ≠ (tr, tc) →
  cell (moved b fr fc tr tc) row col =
  if decide ((fr, fc) = (row, col)) then None
  else if decide ((tr, tc) = (row, col)) then cell b fr fc
  else cell b row col.
Proof.
  intros Hwf Hf Ht Hin Hne. unfold moved.
  assert (wf_grid (captured b (cell b tr tc))) as Hwf1.
  { unfold wf_grid. by rewrite board_captured. }
  rewrite cell_put by (try apply wf_grid_put; done).
  case_decide; [done|].
  rewrite cell_put by done.
  by rewrite !cell_captured.
Qed.

(** What a legal move tells about its two squares. *)
Lemma legal_move_squares (b : ChessBoard.t) (turn : Color) (fr fc tr tc : Z)
    (p : PieceObj) :
  wf_grid b → in_grid fr fc → in_grid tr tc →
  cell b fr fc = Some p →
  value (is_valid_move p b turn fr fc tr tc) = Ok true →
  (fr, fc) ≠ (tr, tc) ∧ get_color p = turn ∧
  ∀ q, cell b tr tc = Some q → get_color q ≠ turn.
Proof.
  intros Hwf Hf Ht Hp Hlegal%is_valid_move_base.
  rewrite Piece_is_valid_move_eq in Hlegal by done. simpl in Hlegal.
  injection Hlegal as Hok. split.
  - by eapply base_ok_distinct.
  - by apply base_ok_true.
Qed.

(** ** The effect of a legal move on the board *)

(** C2. On a board of eight rows of eight cells with a count stored for every
    colour and kind, when the piece on the source square reports the move to
    the target square legal, [move_piece] returns a board with that piece on
    the target square and the source square empty. A piece that stood on the
    target square is of the opposing colour; its count is one lower and every
    other count is as before. With the target square empty the dictionary of
    counts is as before. *)
Theorem legal_move_effect (b : ChessBoard.t) (turn : Color) (fr fc tr tc : Z)
    (p : PieceObj) :
  wf_board b → in_grid fr fc → in_grid tr tc →
  piece_at b fr fc p →
  value (is_valid_move p b turn fr fc tr tc) = Ok true →
  ∃ b', value (ChessBoard.move_piece b fr fc tr tc) = Ok b' ∧
        piece_at b' tr tc p ∧
        empty_at b' fr fc ∧
        (∀ q, piece_at b tr tc q →
           get_color q = other (get_color p) ∧
           (∃ n, stored_count b (get_color q) (class_name q) = Some n ∧
                 stored_count b' (get_color q) (class_name q) = Some (n - 1)) ∧
           (∀ c k, (c, k) ≠ (get_color q, class_name q) →
                   stored_count b' c k = stored_count b c k)) ∧
        (empty_at b tr tc →
           ChessBoard._current_pieces_on_board b' =
           ChessBoard._current_pieces_on_board b).
Proof.
  intros Hwfb Hf Ht Hp Hlegal. pose proof Hwfb as [Hwf Hcounts].
  apply piece_at_cell in Hp; [|done..].
  destruct (legal_move_squares b turn fr fc tr tc p) as (Hne & Hcol & Hopp);
    [done..|].
  pose proof (wf_board_moved b fr fc tr tc Hwfb) as [Hwf' _].
  exists (moved b fr fc tr tc). split_and!.
  - by rewrite move_piece_eq.
  - apply piece_at_cell; [done..|]. rewrite cell_moved by done.
    rewrite decide_False, decide_True by done. done.
  - apply empty_at_cell; [done..|]. rewrite cell_moved by done.
    by rewrite decide_True.
  - intros q Hq%piece_at_cell; [|done..]. split_and!.
    + specialize (Hopp q Hq). rewrite Hcol.
      destruct (get_color q), turn; done.
    + destruct (Hcounts (get_color q) (class_name q)) as [n Hn].
      exists n. split; [done|].
      rewrite stored_count_moved, Hq, stored_count_captured by done.
      rewrite decide_True by done. by rewrite Hn.
    + intros c k Hck.
      rewrite stored_count_moved, Hq, stored_count_captured by done.
      rewrite decide_False; [done|]. intros [-> ->]. done.
  - intros He%empty_at_cell; [|done..].
    unfold moved. rewrite !counts_put, He. done.
Qed.

(** ** Notation tokens *)

Lemma letter_lookup (x : string) :
  str_in x ChessVar.valid_letters = true →
  ∃ v, ChessVar.letter_to_index !! x = Some v ∧ 0 <= v <= 7.
Proof.
  unfold str_in, ChessVar.valid_letters. simpl. rewrite !orb_true_iff.
  intros H. decompose [or] H; clear H; try done;
    match goal with H : (_ =? _)%string = true |- _ =>
      apply String.eqb_eq in H; subst x end;
    eexists; (split; [vm_compute; reflexivity | lia]).
Qed.

Lemma number_lookup (x : string) :
  str_in x ChessVar.valid_numbers = true →
  ∃ v, ChessVar.number_to_index !! x = Some v ∧ 0 <= v <= 7.
Proof.
  unfold str_in, ChessVar.valid_numbers. simpl. rewrite !orb_true_iff.
  intros H. decompose [or] H; clear H; try done;
    match goal with H : (_ =? _)%string = true |- _ =>
      apply String.eqb_eq in H; subst x end;
    eexists; (split; [vm_compute; reflexivity | lia]).
Qed.

(** The validity test of a token never raises and reads no cell; a token it
    accepts converts to coordinates of the grid. *)
Lemma malformed_spec (square : string) :
  ∃ bad, ChessVar.malformed square = mkM [] (Ok bad) ∧
         (bad = false →
          ∃ row col, ChessVar.algebraic_to_indices square = mkM [] (Ok (row, col)) ∧
                     in_grid row col).
Proof.
  unfold ChessVar.malformed, ChessVar.algebraic_to_indices.
  destruct square as [|a [|c [|? ?]]]; try (by exists true).
  cbn [String.length Nat.eqb negb].
  change (str_getitem (String a (String c "")) 0) with (Ok (String a "")).
  change (str_getitem (String a (String c "")) 1) with (Ok (String c "")).
  unfold lift. msimpl.
  destruct (str_in (upper (String a "")) ChessVar.valid_letters) eqn:Hl;
    msimpl; [|by exists true].
  destruct (str_in (String c "") ChessVar.valid_numbers) eqn:Hn;
    msimpl; [|by exists true].
  exists false. split; [done|]. intros _.
  destruct (letter_lookup _ Hl) as (col & Hcol & ?).
  destruct (number_lookup _ Hn) as (row & Hrow & ?).
  exists row, col. split; [|done].
  unfold dict_getitem. rewrite Hcol. msimpl. rewrite Hrow. by msimpl.
Qed.

Lemma is_valid_input_spec (from_square to_square : string) :
  ∃ valid, ChessVar.is_valid_input from_square to_square = mkM [] (Ok valid) ∧
    (valid = true →
     ∃ fr fc tr tc,
       ChessVar.algebraic_to_indices from_square = mkM [] (Ok (fr, fc)) ∧
       ChessVar.algebraic_to_indices to_square = mkM [] (Ok (tr, tc)) ∧
       in_grid fr fc ∧ in_grid tr tc).
Proof.
  unfold ChessVar.is_valid_input.
  destruct (String.eqb from_square to_square); [by exists false|].
  destruct (malformed_spec from_square) as (bad1 & -> & H1).
  rewrite bind_mkM_Ok. destruct bad1; [by exists false|].
  destruct (malformed_spec to_square) as (bad2 & -> & H2).
  rewrite bind_mkM_Ok. destruct bad2; [by exists false|].
  exists true. split; [done|]. intros _.
  destruct H1 as (fr & fc & ? & ?); [done|].
  destruct H2 as (tr & tc & ? & ?); [done|].
  by exists fr, fc, tr, tc.
Qed.

(** ** The game object *)

Lemma zero_in_values_true `{Countable K} (d : gmap K Z) :
  zero_in_values d = true ↔ ∃ k, d !! k = Some 0.
Proof.
  unfold zero_in_values. rewrite existsb_exists. split.
  - intros (x & Hin & ->%Z.eqb_eq).
    apply list_elem_of_In, list_elem_of_fmap in Hin as ([k v] & Hv & Hkv).
    simpl in Hv. subst v. exists k. by apply elem_of_map_to_list.
  - intros (k & Hk). exists 0. split; [|done].
    apply list_elem_of_In, list_elem_of_fmap. exists (k, 0).
    split; [done|]. by apply elem_of_map_to_list.
Qed.

Lemma any_zero_lookup (b : ChessBoard.t) (c : Color) (inner : gmap Kind Z) :
  ChessBoard._current_pieces_on_board b !! c = Some inner →
  zero_in_values inner = true ↔ any_zero b c.
Proof.
  intros Hc. rewrite zero_in_values_true. unfold any_zero, stored_count.
  by rewrite Hc.
Qed.

Lemma set_game_state_inv (g g1 : ChessVar.t) :
  value (ChessVar.set_game_state g) = Ok g1 →
  ChessVar._game_board g1 = ChessVar._game_board g ∧
  ChessVar._player_turn g1 = ChessVar._player_turn g ∧
  decided (ChessVar._game_board g) (ChessVar._game_state g)
          (ChessVar._game_state g1).
Proof.
  unfold ChessVar.set_game_state, ChessBoard.get_current_pieces_on_board,
    lift, dict_getitem.
  destruct (ChessBoard._current_pieces_on_board (ChessVar._game_board g) !! WHITE)
    as [w|] eqn:Hw; [|done].
  msimpl.
  assert (ChessVar._game_board
            (if zero_in_values w
             then ChessVar.mk (ChessVar._game_board g) (ChessVar._player_turn g)
                    BLACK_WON
             else g) = ChessVar._game_board g) as -> by (by destruct (zero_in_values w)).
  destruct (ChessBoard._current_pieces_on_board (ChessVar._game_board g) !! BLACK)
    as [bl|] eqn:Hbl; [|done].
  msimpl. intros [= <-].
  pose proof (any_zero_lookup _ _ _ Hw) as HW.
  pose proof (any_zero_lookup _ _ _ Hbl) as HB.
  unfold decided.
  destruct HW as [HW1 HW2], HB as [HB1 HB2].
  destruct (zero_in_values w), (zero_in_values bl); simpl;
    intuition discriminate.
Qed.

Lemma set_game_state_wf (g : ChessVar.t) :
  wf_counts (ChessVar._game_board g) →
  ∃ g1, ChessVar.set_game_state g = mkM [] (Ok g1).
Proof.
  intros Hwf.
  destruct (Hwf WHITE King) as [n Hn], (Hwf BLACK King) as [n' Hn'].
  unfold stored_count in *.
  unfold ChessVar.set_game_state, ChessBoard.get_current_pieces_on_board,
    lift, dict_getitem.
  destruct (ChessBoard._current_pieces_on_board (ChessVar._game_board g) !! WHITE)
    as [w|] eqn:Hw; [|done].
  msimpl.
  assert (ChessVar._game_board
            (if zero_in_values w
             then ChessVar.mk (ChessVar._game_board g) (ChessVar._player_turn g)
                    BLACK_WON
             else g) = ChessVar._game_board g) as -> by (by destruct (zero_in_values w)).
  destruct (ChessBoard._current_pieces_on_board (ChessVar._game_board g) !! BLACK)
    as [bl|] eqn:Hbl; [|done].
  msimpl. by eexists.
Qed.

Lemma set_player_turn_spec (g : ChessVar.t) :
  ChessVar.set_player_turn g =
  ChessVar.mk (ChessVar._game_board g) (other (ChessVar._player_turn g))
              (ChessVar._game_state g).
Proof. unfold ChessVar.set_player_turn. by destruct (ChessVar._player_turn g). Qed.

(** The two ways a call of [make_move] returns: a rejection, with the game
    object as it was, or an applied move, with every step of the last branch
    done. *)
Lemma make_move_inv (g g' : ChessVar.t) (from_square to_square : string)
    (applied : bool) :
  value (ChessVar.make_move g from_square to_square) = Ok (applied, g') →
  (applied = false ∧ g' = g) ∨
  (applied = true ∧ ChessVar._game_state g = UNFINISHED ∧
   ∃ fr fc tr tc piece board g1,
     value (ChessVar.is_valid_input from_square to_square) = Ok true ∧
     value (ChessVar.algebraic_to_indices from_square) = Ok (fr, fc) ∧
     value (ChessVar.algebraic_to_indices to_square) = Ok (tr, tc) ∧
     piece_at (ChessVar._game_board g) fr fc piece ∧
     value (is_valid_move piece (ChessVar._game_board g) (ChessVar._player_turn g)
              fr fc tr tc) = Ok true ∧
     value (ChessBoard.move_piece (ChessVar._game_board g) fr fc tr tc) = Ok board ∧
     value (ChessVar.set_game_state
              (ChessVar.mk board (ChessVar._player_turn g) (ChessVar._game_state g)))
       = Ok g1 ∧
     g' = ChessVar.set_player_turn g1).
Proof.
  unfold ChessVar.make_move.
  case_bool_decide as Hst; cbn [negb]; [|intros [= <- <-]; by left].
  intros ([] & Hvalid & H)%bind_Ok_inv; cbn [negb] in H;
    [|injection H as <- <-; by left].
  apply bind_Ok_inv in H as ([fr fc] & Hfrom & H).
  apply bind_Ok_inv in H as ([tr tc] & Hto & H).
  apply bind_Ok_inv in H as ([piece|] & Hpiece & H);
    [|injection H as <- <-; by left].
  apply bind_Ok_inv in H as ([] & Hlegal & H); cbn [negb] in H;
    [|injection H as <- <-; by left].
  apply bind_Ok_inv in H as (board & Hmove & H).
  apply bind_Ok_inv in H as (g1 & Hstate & H).
  apply bind_Ok_inv in H as ([] & _ & H).
  injection H as <- <-. right. split_and!; [done..|].
  by exists fr, fc, tr, tc, piece, board, g1.
Qed.

(** ** Invariant of the game object *)

Lemma counts_match_wf (b : ChessBoard.t) : counts_match b → wf_counts b.
Proof. intros H c k. rewrite H. by eexists. Qed.

Lemma is_piece_Some (c : Color) (k : Kind) (q : PieceObj) :
  is_piece c k (Some q) =
  if decide (c = get_color q ∧ k = class_name q) then 1%nat else 0%nat.
Proof.
  unfold is_piece. destruct q as [k' c']. simpl.
  case_bool_decide as H; case_decide as H'; try done.
  - destruct H'. by injection H as -> ->.
  - destruct H. by destruct H' as [-> ->].
Qed.

Lemma is_piece_None (c : Color) (k : Kind) : is_piece c k None = 0%nat.
Proof. done. Qed.

Lemma pieces_captured (b : ChessBoard.t) (o : option PieceObj) (c : Color) (k : Kind) :
  pieces_on_grid (captured b o) c k = pieces_on_grid b c k.
Proof. unfold pieces_on_grid. by rewrite board_captured. Qed.

Lemma counts_match_moved (b : ChessBoard.t) (fr fc tr tc : Z) (p : PieceObj) :
  wf_grid b → counts_match b → in_grid fr fc → in_grid tr tc →
  (fr, fc) ≠ (tr, tc) → cell b fr fc = Some p →
  counts_match (moved b fr fc tr tc).
Proof.
  intros Hwf Hm Hf Ht Hne Hp c k.
  set (b1 := captured b (cell b tr tc)).
  assert (wf_grid b1) as Hwf1.
  { unfold wf_grid, b1. by rewrite board_captured. }
  assert (cell b1 fr fc = Some p) as Hp1 by (unfold b1; by rewrite cell_captured).
  assert (cell b1 tr tc = cell b tr tc) as Ht1 by apply cell_captured.
  assert (pieces_on_grid b1 c k = pieces_on_grid b c k) as Hb1
    by apply pieces_captured.
  assert (pieces_on_grid (moved b fr fc tr tc) c k + is_piece c k (cell b tr tc) =
          pieces_on_grid b c k)%nat as Hcount.
  { pose proof (pieces_put (put b1 tr tc (cell b1 fr fc)) fr fc None c k
                  (wf_grid_put _ _ _ _ Hwf1) Hf) as H1.
    pose proof (pieces_put b1 tr tc (cell b1 fr fc) c k Hwf1 Ht) as H2.
    rewrite cell_put, decide_False in H1 by done.
    rewrite is_piece_None in H1. rewrite Ht1, Hb1 in H2.
    unfold moved. fold b1. lia. }
  rewrite stored_count_moved.
  destruct (cell b tr tc) as [q|] eqn:Hq.
  - rewrite stored_count_captured by (by apply counts_match_wf).
    rewrite is_piece_Some in Hcount. rewrite Hm.
    case_decide; simpl; f_equal; lia.
  - simpl. rewrite Hm. rewrite is_piece_None in Hcount.
    f_equal. lia.
Qed.

Lemma Inv_init : Inv ChessVar.__init__.
Proof.
  split.
  - split; [done|]. by repeat constructor.
  - by intros [] [].
Qed.

Lemma make_move_finished (g : ChessVar.t) (from_square to_square : string) :
  ChessVar._game_state g ≠ UNFINISHED →
  ChessVar.make_move g from_square to_square = mkM [] (Ok (false, g)).
Proof. intros Hst. unfold ChessVar.make_move. by rewrite bool_decide_eq_false_2. Qed.

Lemma make_move_safe (g : ChessVar.t) (from_square to_square : string) :
  Inv g → safe (ChessVar.make_move g from_square to_square).
Proof.
  intros [Hwf Hm].
  assert (wf_board (ChessVar._game_board g)) as Hwfb
    by (split; [done | by apply counts_match_wf]).
  destruct (decide (ChessVar._game_state g = UNFINISHED)) as [Hst|Hst];
    [|rewrite make_move_finished by done; apply safe_ret].
  unfold ChessVar.make_move. rewrite bool_decide_eq_true_2 by done. cbn [negb].
  destruct (is_valid_input_spec from_square to_square) as ([] & -> & Hv);
    msimpl; [|apply (safe_ret (false, g))].
  destruct Hv as (fr & fc & tr & tc & -> & -> & Hf & Ht); [done|].
  msimpl. rewrite get_piece_at_in_grid by done. msimpl.
  apply (safe_mkM_cons (fr, fc)); [done|].
  destruct (cell (ChessVar._game_board g) fr fc) as [piece|];
    [|apply (safe_ret (false, g))].
  apply safe_bind; [by apply safe_is_valid_move|].
  intros [] _; cbn [negb]; [|apply (safe_ret (false, g))].
  rewrite move_piece_eq by done.
  msimpl.
  destruct (set_game_state_wf
    (ChessVar.mk (moved (ChessVar._game_board g) fr fc tr tc)
                 (ChessVar._player_turn g) (ChessVar._game_state g))) as [g1 Hg1].
  { by apply wf_board_moved. }
  rewrite Hg1.
  rewrite bind_mkM_Ok.
  assert (safe (ChessVar.display_board_and_game_status (ChessVar.set_player_turn g1)
                ≫= λ _, mret (true, ChessVar.set_player_turn g1))) as [Hval Hacc].
  { apply safe_bind; [|intros; apply safe_ret].
    apply safe_display_board. rewrite set_player_turn_spec. simpl.
    pose proof (set_game_state_inv _ _ (f_equal value Hg1)) as (-> & _).
    by apply wf_board_moved. }
  split; [done|]. cbn [accesses app].
  repeat (apply Forall_cons; split; [done|]). done.
Qed.

Lemma make_move_Inv (g g' : ChessVar.t) (from_square to_square : string)
    (applied : bool) :
  Inv g →
  value (ChessVar.make_move g from_square to_square) = Ok (applied, g') →
  Inv g'.
Proof.
  intros [Hwf Hm] [[_ ->]|(_ & _ & H)]%make_move_inv; [done|].
  assert (wf_board (ChessVar._game_board g)) as Hwfb
    by (split; [done | by apply counts_match_wf]).
  destruct H as (fr & fc & tr & tc & piece & board & g1 &
                 Hvalid & Hfrom & Hto & Hpiece & Hlegal & Hmove & Hstate & ->).
  destruct (is_valid_input_spec from_square to_square) as (v & Hv & Hcoords).
  rewrite Hv in Hvalid. injection Hvalid as ->.
  destruct Hcoords as (fr' & fc' & tr' & tc' & Hfrom' & Hto' & Hf & Ht); [done|].
  rewrite Hfrom' in Hfrom. rewrite Hto' in Hto.
  injection Hfrom as <- <-. injection Hto as <- <-.
  apply piece_at_cell in Hpiece; [|done..].
  destruct (legal_move_squares _ _ _ _ _ _ _ Hwf Hf Ht Hpiece Hlegal)
    as (Hne & _ & _).
  rewrite move_piece_eq in Hmove by done.
  injection Hmove as <-.
  apply set_game_state_inv in Hstate as (Hboard & _ & _). simpl in Hboard.
  unfold Inv. rewrite set_player_turn_spec. simpl. rewrite Hboard. split.
  - by apply wf_board_moved.
  - by eapply counts_match_moved.
Qed.

Lemma reachable_Inv (g : ChessVar.t) : reachable g → Inv g.
Proof.
  induction 1 as [|g g' f t applied _ IH Hstep];
    [apply Inv_init | by eapply make_move_Inv].
Qed.

(** ** The movement rules *)

Lemma occupied_by_own (b : ChessBoard.t) (turn : Color) (row col : Z) :
  wf_grid b → in_grid row col →
  (∃ q, piece_at b row col q ∧ get_color q = turn) ↔
  (∃ q, cell b row col = Some q ∧ get_color q = turn).
Proof.
  intros Hwf Hin. split; intros (q & Hq & Hc); exists q; split; try done;
    by apply (piece_at_cell b row col q Hwf Hin).
Qed.

(** C9. For a king of the moving colour standing on the source square (both
    squares on the grid), [King.is_valid_move] returns [True] exactly when the
    target square holds no piece of the moving colour, the move is at most one
    step in each direction, and the two squares differ. *)
Theorem king_move_legal_iff (b : ChessBoard.t) (turn : Color) (self : PieceObj)
    (fr fc tr tc : Z) :
  wf_grid b → in_grid fr fc → in_grid tr tc →
  piece_at b fr fc self → class_name self = King → get_color self = turn →
  value (King.is_valid_move self b turn fr fc tr tc) = Ok true ↔
  ¬ (∃ q, piece_at b tr tc q ∧ get_color q = turn) ∧
  Z.max (Z.abs (tr - fr)) (Z.abs (tc - fc)) <= 1 ∧
  (fr, fc) ≠ (tr, tc).
Proof.
  intros Hwf Hf Ht Hself%piece_at_cell _ Hcol; [|done..].
  rewrite occupied_by_own by done.
  unfold King.is_valid_move. rewrite Piece_is_valid_move_eq by done. msimpl.
  destruct (base_ok self b turn tr tc) eqn:Hok; msimpl.
  - pose proof (base_ok_distinct _ _ _ _ _ _ _ Hself Hok) as Hne.
    apply base_ok_true in Hok as [_ Hopp].
    rewrite !Z.gtb_ltb.
    destruct (Z.ltb_spec 1 (Z.abs (tc - fc))), (Z.ltb_spec 1 (Z.abs (tr - fr)));
      simpl; (split; [intros [=] || intros _ | intros (_ & ? & _); try done; try lia]).
    split_and!; [|lia|done]. intros (q & Hq & Hc). by apply (Hopp q).
  - split; [done|]. intros (Hfree & _ & Hne). exfalso.
    apply not_true_iff_false in Hok. apply Hok, base_ok_true.
    split; [done|]. intros q Hq Hc. apply Hfree. by exists q.
Qed.

Section pawn_rules.

Context (b : ChessBoard.t) (turn : Color) (self : PieceObj) (fr fc tr tc : Z).
Hypothesis Hwf : wf_grid b.
Hypothesis Hf : in_grid fr fc.
Hypothesis Ht : in_grid tr tc.

Lemma single_step_cell :
  single_step b turn fr fc tr tc ↔
  tr = fr + forward turn ∧ tc = fc ∧ cell b tr tc = None.
Proof. unfold single_step. by rewrite empty_at_cell. Qed.

Lemma double_step_cell :
  double_step b turn fr fc tr tc ↔
  fr = start_row turn ∧ tr = fr + 2 * forward turn ∧ tc = fc ∧
  cell b (fr + forward turn) fc = None ∧ cell b tr tc = None.
Proof.
  unfold double_step. rewrite (empty_at_cell b tr tc) by done.
  split; intros (Hs & ? & ? & Hmid & ?); split_and!; try done;
    (apply empty_at_cell in Hmid; [done | done |]);
    unfold in_grid in *; destruct turn; simpl in *; lia.
Qed.

Lemma diagonal_capture_cell :
  base_ok self b turn tr tc = true →
  diagonal_capture b turn fr fc tr tc ↔
  tr = fr + forward turn ∧ (tc = fc + 1 ∨ tc = fc - 1) ∧ cell b tr tc ≠ None.
Proof.
  intros [_ Hopp]%base_ok_true. unfold diagonal_capture.
  split; intros (? & ? & Hq); split_and!; try done.
  - destruct Hq as (q & Hq' & _). apply piece_at_cell in Hq'; [|done..].
    by rewrite Hq'.
  - destruct (cell b tr tc) as [q|] eqn:Hcell; [|done]. exists q. split.
    + by apply piece_at_cell.
    + specialize (Hopp q eq_refl). by destruct (get_color q), turn.
Qed.

End pawn_rules.

Ltac rewrite_cells :=
  repeat match goal with
  | H : cell _ _ _ = _ |- _ => rewrite H in *; clear H
  end.

(** C7. For a pawn of the moving colour on the source square, with the shared
    colour check passed (both squares on the grid), [Pawn.is_valid_move]
    returns [True] exactly when the move is one, and then only one, of: a
    single step forward onto an empty square; a double step forward from the
    colour's starting rank over an empty square onto an empty square; a
    diagonal step forward onto a square holding an opposing piece. *)
Theorem pawn_move_legal_iff (b : ChessBoard.t) (turn : Color) (self : PieceObj)
    (fr fc tr tc : Z) :
  wf_grid b → in_grid fr fc → in_grid tr tc →
  piece_at b fr fc self → class_name self = Pawn → get_color self = turn →
  value (Piece.is_valid_move self b turn fr fc tr tc) = Ok true →
  value (Pawn.is_valid_move self b turn fr fc tr tc) = Ok true ↔
  exactly_one (single_step b turn fr fc tr tc)
              (double_step b turn fr fc tr tc)
              (diagonal_capture b turn fr fc tr tc).
Proof.
  intros Hwf Hf Ht _ _ _ Hbase.
  rewrite Piece_is_valid_move_eq in Hbase by done. injection Hbase as Hok.
  unfold exactly_one.
  rewrite single_step_cell, double_step_cell, (diagonal_capture_cell _ _ self)
    by done.
  unfold Pawn.is_valid_move. rewrite Piece_is_valid_move_eq by done.
  msimpl. rewrite Hok. msimpl. clear Hok.
  destruct turn; cbn [forward start_row]; rewrite ?Z.add_opp_r;
    repeat match goal with
    | |- context [if ?c then _ else _] =>
        lazymatch c with
        | bool_decide _ => fail
        | _ => destruct c eqn:?
        end
    end;
    repeat match goal with
    | H : _ && _ = true |- _ => apply andb_true_iff in H as [? ?]
    | H : _ || _ = true |- _ => apply orb_true_iff in H as [?|?]
    | H : (_ =? _) = true |- _ => apply Z.eqb_eq in H
    end;
    rewrite ?get_piece_at_in_grid by (done || (unfold in_grid in *; lia));
    msimpl;
    repeat match goal with
    | |- context [bool_decide (?x = None)] =>
        destruct x eqn:?; [rewrite bool_decide_eq_false_2 by done
                          |rewrite bool_decide_eq_true_2 by done]
    | |- context [bool_decide (?x ≠ None)] =>
        destruct x eqn:?; [rewrite bool_decide_eq_true_2 by done
                          |rewrite bool_decide_eq_false_2 by (by intros [])]
    end; msimpl.
  all: change (fr + -1) with (fr - 1); subst.
  all: try rewrite_cells.
  all: intuition (try lia; try congruence).
Qed.

Lemma L_shapeb_true (fr fc tr tc : Z) :
  L_shapeb fr fc tr tc = true ↔ L_shape fr fc tr tc.
Proof. unfold L_shapeb, L_shape. zbool; simpl; intuition (lia || done). Qed.

Lemma Knight_is_valid_move_value (self : PieceObj) (b : ChessBoard.t) (turn : Color)
    (fr fc tr tc : Z) :
  wf_grid b → in_grid tr tc →
  value (Knight.is_valid_move self b turn fr fc tr tc) =
  Ok (base_ok self b turn tr tc && L_shapeb fr fc tr tc).
Proof.
  intros Hwf Ht. unfold Knight.is_valid_move, L_shapeb.
  rewrite Piece_is_valid_move_eq by done. msimpl.
  destruct (base_ok self b turn tr tc); msimpl; [|done].
  destruct ((Z.abs (tr - fr) =? 1) && (Z.abs (tc - fc) =? 2)); [done|].
  by destruct ((Z.abs (tr - fr) =? 2) && (Z.abs (tc - fc) =? 1)).
Qed.

Lemma base_ok_same_target (self : PieceObj) (b b' : ChessBoard.t) (turn : Color)
    (tr tc : Z) :
  cell b' tr tc = cell b tr tc →
  base_ok self b' turn tr tc = base_ok self b turn tr tc.
Proof. unfold base_ok. by intros ->. Qed.

Lemma blocked_not_clear (b : ChessBoard.t) (fr fc tr tc : Z) :
  (∃ row col q, between fr fc tr tc row col ∧ piece_at b row col q) →
  ¬ path_clear b fr fc tr tc.
Proof.
  intros (row & col & q & Hbetween & Hq) Hclear.
  specialize (Hclear row col Hbetween). unfold empty_at, piece_at in *.
  congruence.
Qed.

Lemma checked_false (m : M bool) :
  value m = Ok true ∨ value m = Ok false → value m ≠ Ok true →
  value (clear ← m; if negb clear then mret false else mret true) = Ok false.
Proof. intros [H|H] Hne; [done|]. by rewrite value_bind, H. Qed.

(** C8. On a board of eight rows of eight cells:
    - a rook move along a rank or a file, between squares of the grid, with a
      piece on some square strictly between the two, is reported illegal;
    - a knight move of L shape that passes the shared colour check is
      reported legal, and the verdict for a knight is the same on any other
      board with the same content on the target square;
    - each of the three path checks, on a move of its own orientation between
      squares of the grid, returns [True] exactly when every square strictly
      between the two is empty. *)
Theorem paths_block_sliders_not_knights (b : ChessBoard.t) :
  wf_grid b →
  (∀ self turn fr fc tr tc,
     in_grid fr fc → in_grid tr tc → tr = fr ∨ tc = fc →
     (∃ row col q, between fr fc tr tc row col ∧ piece_at b row col q) →
     value (Rook.is_valid_move self b turn fr fc tr tc) = Ok false) ∧
  (∀ self turn fr fc tr tc,
     in_grid fr fc → in_grid tr tc → L_shape fr fc tr tc →
     value (Piece.is_valid_move self b turn fr fc tr tc) = Ok true →
     value (Knight.is_valid_move self b turn fr fc tr tc) = Ok true) ∧
  (∀ b' self turn fr fc tr tc,
     wf_grid b' → in_grid fr fc → in_grid tr tc →
     value (ChessBoard.get_piece_at b' tr tc) = value (ChessBoard.get_piece_at b tr tc) →
     value (Knight.is_valid_move self b' turn fr fc tr tc) =
     value (Knight.is_valid_move self b turn fr fc tr tc)) ∧
  (∀ fr fc tc,
     in_grid fr fc → in_grid fr tc →
     value (Piece.check_horizontal_path b fr fc tc) = Ok true ↔
     path_clear b fr fc fr tc) ∧
  (∀ fr fc tr,
     in_grid fr fc → in_grid tr fc →
     value (Piece.check_vertical_path b fr fc tr) = Ok true ↔
     path_clear b fr fc tr fc) ∧
  (∀ fr fc tr tc,
     in_grid fr fc → in_grid tr tc → Z.abs (tr - fr) = Z.abs (tc - fc) →
     value (Piece.check_diagonal_path b fr fc tr tc) = Ok true ↔
     path_clear b fr fc tr tc).
Proof.
  intros Hwf. split_and!.
  - intros self turn fr fc tr tc Hf Ht Hline Hblocked%blocked_not_clear.
    unfold Rook.is_valid_move. rewrite Piece_is_valid_move_eq by done. msimpl.
    destruct (base_ok self b turn tr tc); msimpl; [|done].
    destruct (Z.eqb_spec tr fr) as [->|Hrow].
    + destruct (check_horizontal_path_spec b fr fc tc Hwf Hf Ht)
        as (_ & Hbool & Hiff).
      apply checked_false; [done|]. by rewrite Hiff.
    + destruct Hline as [?| ->]; [done|]. rewrite Z.eqb_refl.
      destruct (check_vertical_path_spec b fr fc tr Hwf Hf Ht)
        as (_ & Hbool & Hiff).
      apply checked_false; [done|]. by rewrite Hiff.
  - intros self turn fr fc tr tc Hf Ht HL%L_shapeb_true Hbase.
    rewrite Piece_is_valid_move_eq in Hbase by done. injection Hbase as Hok.
    rewrite Knight_is_valid_move_value by done. by rewrite Hok, HL.
  - intros b' self turn fr fc tr tc Hwf' Hf Ht Hsame.
    rewrite !get_piece_at_in_grid in Hsame by done. injection Hsame as Hsame.
    rewrite !Knight_is_valid_move_value by done.
    by rewrite (base_ok_same_target self b b').
  - intros fr fc tc Hf Ht. by apply check_horizontal_path_spec.
  - intros fr fc tr Hf Ht. by apply check_vertical_path_spec.
  - intros fr fc tr tc Hf Ht Hd. by apply check_diagonal_path_spec.
Qed.

(** ** Sessions *)

Lemma play_cons (g : ChessVar.t) (from_square to_square : string)
    (rest : list (string * string)) :
  play g ((from_square, to_square) :: rest) =
  '(applied, g') ← ChessVar.make_move g from_square to_square;
  later ← play g' rest;
  mret (g' :: later).
Proof. reflexivity. Qed.

Lemma play_finished (g : ChessVar.t) (moves : list (string * string)) :
  ChessVar._game_state g ≠ UNFINISHED →
  play g moves = mkM [] (Ok (replicate (length moves) g)).
Proof.
  intros Hst. induction moves as [|[f t] rest IH]; [done|].
  rewrite play_cons, make_move_finished by done. msimpl.
  rewrite IH. by msimpl.
Qed.

Lemma changes_at_most_once_cons (g : GameState) (l : list GameState) :
  changes_at_most_once l → g = UNFINISHED ∨ head l = Some g →
  changes_at_most_once (g :: l).
Proof.
  intros (n & m & w & Hw & ->) [->|Hhead].
  - by exists (S n), m, w.
  - destruct (decide (g = UNFINISHED)) as [->|Hg]; [by exists (S n), m, w|].
    destruct n as [|n]; [|by injection Hhead as <-].
    destruct m as [|m]; [done|]. injection Hhead as <-.
    by exists 0%nat, (S (S m)), w.
Qed.

Lemma play_spec (moves : list (string * string)) (g : ChessVar.t) :
  Inv g →
  ∃ trace, value (play g moves) = Ok trace ∧
           length trace = length moves ∧
           Forall cell_in_grid (accesses (play g moves)) ∧
           changes_at_most_once (ChessVar._game_state g ::
                                 (ChessVar._game_state <$> trace)).
Proof.
  revert g. induction moves as [|[f t] rest IH]; intros g Hinv.
  - exists []. split_and!; [done | done | constructor |].
    destruct (decide (ChessVar._game_state g = UNFINISHED)) as [->|Hg].
    + by exists 1%nat, 0%nat, WHITE_WON.
    + by exists 0%nat, 1%nat, (ChessVar._game_state g).
  - destruct (make_move_safe g f t Hinv) as [[[applied g'] Hstep] Hacc].
    destruct (IH g' (make_move_Inv _ _ _ _ _ Hinv Hstep))
      as (trace & Htrace & Hlen & Hacc' & Hshape).
    exists (g' :: trace). rewrite play_cons. split_and!.
    + rewrite value_bind, Hstep, value_bind, Htrace. done.
    + simpl. by rewrite Hlen.
    + rewrite accesses_bind, Hstep, accesses_bind, Htrace. simpl.
      rewrite app_nil_r. by apply Forall_app.
    + apply changes_at_most_once_cons; [done|].
      destruct (decide (ChessVar._game_state g = UNFINISHED)) as [?|Hg];
        [by left | right].
      rewrite make_move_finished in Hstep by done.
      by injection Hstep as _ <-.
Qed.

(** ** Properties of [make_move] *)

(** C1. Whenever [make_move] applies a move, the state it leaves is the one
    read off the counts of the board it leaves: won by WHITE when some BLACK
    count is 0; otherwise won by BLACK when some WHITE count is 0; otherwise
    still unfinished. *)
Theorem state_recomputed_after_move (g g' : ChessVar.t)
    (from_square to_square : string) :
  value (ChessVar.make_move g from_square to_square) = Ok (true, g') →
  (any_zero (ChessVar._game_board g') BLACK →
     ChessVar._game_state g' = WHITE_WON) ∧
  (¬ any_zero (ChessVar._game_board g') BLACK →
   any_zero (ChessVar._game_board g') WHITE →
     ChessVar._game_state g' = BLACK_WON) ∧
  (¬ any_zero (ChessVar._game_board g') BLACK →
   ¬ any_zero (ChessVar._game_board g') WHITE →
     ChessVar._game_state g' = UNFINISHED).
Proof.
  intros [[? _]|(_ & Hst & H)]%make_move_inv; [done|].
  destruct H as (fr & fc & tr & tc & piece & board & g1 & _ & _ & _ & _ & _ & _
                 & Hstate & ->).
  apply set_game_state_inv in Hstate as (Hboard & _ & Hdecided).
  simpl in Hboard, Hdecided. rewrite Hst in Hdecided.
  rewrite set_player_turn_spec. simpl. by rewrite Hboard.
Qed.

(** C3. A call of [make_move] that returns [False] leaves the grid, the
    counts, the turn and the state as they were, and the same call made again
    returns [False] again and again leaves the same game. This holds from any
    game object, reachable or not. *)
Theorem rejection_changes_nothing (g g' : ChessVar.t)
    (from_square to_square : string) :
  value (ChessVar.make_move g from_square to_square) = Ok (false, g') →
  ChessBoard._board (ChessVar._game_board g') =
    ChessBoard._board (ChessVar._game_board g) ∧
  ChessBoard._current_pieces_on_board (ChessVar._game_board g') =
    ChessBoard._current_pieces_on_board (ChessVar._game_board g) ∧
  ChessVar._player_turn g' = ChessVar._player_turn g ∧
  ChessVar._game_state g' = ChessVar._game_state g ∧
  g' = g ∧
  value (ChessVar.make_move g' from_square to_square) = Ok (false, g').
Proof.
  intros Hrej. pose proof Hrej as [[_ ->]|[? _]]%make_move_inv; done.
Qed.

(** C6, as the code has it. Whenever [make_move] applies a move the turn
    passes to the other colour, whether the game goes on or the move won it. *)
Theorem turn_flips_after_every_applied_move (g g' : ChessVar.t)
    (from_square to_square : string) :
  value (ChessVar.make_move g from_square to_square) = Ok (true, g') →
  ChessVar._player_turn g' = other (ChessVar._player_turn g).
Proof.
  intros [[? _]|(_ & Hst & H)]%make_move_inv; [done|].
  destruct H as (fr & fc & tr & tc & piece & board & g1 & _ & _ & _ & _ & _ & _
                 & Hstate & ->).
  apply set_game_state_inv in Hstate as (_ & Hturn & _).
  rewrite set_player_turn_spec. simpl. by rewrite Hturn.
Qed.

(** C4. In every game reachable from a fresh one, the count stored for a
    colour and kind is the number of such pieces on the grid. *)
Theorem counts_equal_pieces_on_grid (g : ChessVar.t) (c : Color) (k : Kind) :
  reachable g →
  stored_count (ChessVar._game_board g) c k =
  Some (Z.of_nat (pieces_on_grid (ChessVar._game_board g) c k)).
Proof. intros [_ Hm]%reachable_Inv. apply Hm. Qed.

(** C5. Over any list of calls from a fresh game every call returns, and the
    states seen, starting with the initial one, are a run of UNFINISHED
    followed by a run of one won state; and from any game whose state is not
    UNFINISHED a call returns [False], touches nothing and leaves the game as
    it was. *)
Theorem game_state_changes_at_most_once (moves : list (string * string)) :
  (∃ trace,
     value (play ChessVar.__init__ moves) = Ok trace ∧
     length trace = length moves ∧
     changes_at_most_once (UNFINISHED :: (ChessVar._game_state <$> trace))) ∧
  (∀ g from_square to_square,
     ChessVar._game_state g ≠ UNFINISHED →
     ChessVar.make_move g from_square to_square = mkM [] (Ok (false, g))).
Proof.
  split.
  - destruct (play_spec moves ChessVar.__init__ Inv_init)
      as (trace & ? & ? & _ & ?).
    by exists trace.
  - intros g f t Hst. by apply make_move_finished.
Qed.

(** C10. In every reachable game and for every two strings, [make_move]
    returns a boolean and a game: it raises nothing and its loops end. Every
    cell of the grid it touches has row and column in 0..7. The validity test
    of the two tokens returns for every two strings, and when it accepts them
    both convert to coordinates of the grid. *)
Theorem make_move_never_raises (g : ChessVar.t) (from_square to_square : string) :
  reachable g →
  (∃ applied g',
     value (ChessVar.make_move g from_square to_square) = Ok (applied, g')) ∧
  Forall cell_in_grid (accesses (ChessVar.make_move g from_square to_square)) ∧
  (∃ valid,
     value (ChessVar.is_valid_input from_square to_square) = Ok valid ∧
     (valid = false →
        ChessVar._game_state g = UNFINISHED →
        ChessVar.make_move g from_square to_square = mkM [] (Ok (false, g))) ∧
     (valid = true →
        ∃ fr fc tr tc,
          value (ChessVar.algebraic_to_indices from_square) = Ok (fr, fc) ∧
          value (ChessVar.algebraic_to_indices to_square) = Ok (tr, tc) ∧
          in_grid fr fc ∧ in_grid tr tc)).
Proof.
  intros Hinv%reachable_Inv.
  destruct (make_move_safe g from_square to_square Hinv) as [[[applied g'] H] Hacc].
  split_and!; [by exists applied, g' | done |].
  destruct (is_valid_input_spec from_square to_square) as (valid & Hv & Hcoords).
  exists valid. split_and!.
  - by rewrite Hv.
  - intros -> Hst. unfold ChessVar.make_move.
    rewrite bool_decide_eq_true_2 by done. rewrite Hv. by msimpl.
  - intros ->. destruct Hcoords as (fr & fc & tr & tc & Hf & Ht & ? & ?); [done|].
    exists fr, fc, tr, tc. by rewrite Hf, Ht.
Qed.

(** ** The properties at concrete games *)

(** A token that fails validation would not convert: the conversion is
    partial, and [make_move] is safe because it validates first. *)
Example conversion_of_malformed_token_raises :
  value (ChessVar.algebraic_to_indices "") = Raise IndexError ∧
  value (ChessVar.algebraic_to_indices "Z9") = Raise KeyError.
Proof. split; vm_compute; reflexivity. Qed.

Lemma state_recomputed_after_move_witness :
  (any_zero (ChessVar._game_board after_capture) BLACK →
     ChessVar._game_state after_capture = WHITE_WON) ∧
  (¬ any_zero (ChessVar._game_board after_capture) BLACK →
   any_zero (ChessVar._game_board after_capture) WHITE →
     ChessVar._game_state after_capture = BLACK_WON) ∧
  (¬ any_zero (ChessVar._game_board after_capture) BLACK →
   ¬ any_zero (ChessVar._game_board after_capture) WHITE →
     ChessVar._game_state after_capture = UNFINISHED).
Proof.
  apply (state_recomputed_after_move before_capture after_capture "G5" "D8").
  vm_compute. reflexivity.
Defined.

Lemma legal_move_effect_witness :
  ∃ b', value (ChessBoard.move_piece (ChessVar._game_board before_capture) 3 6 0 3)
          = Ok b' ∧
        piece_at b' 0 3 (mkPiece Bishop WHITE) ∧
        empty_at b' 3 6 ∧
        (∀ q, piece_at (ChessVar._game_board before_capture) 0 3 q →
           get_color q = other (get_color (mkPiece Bishop WHITE)) ∧
           (∃ n, stored_count (ChessVar._game_board before_capture)
                   (get_color q) (class_name q) = Some n ∧
                 stored_count b' (get_color q) (class_name q) = Some (n - 1)) ∧
           (∀ c k, (c, k) ≠ (get_color q, class_name q) →
                   stored_count b' c k =
                   stored_count (ChessVar._game_board before_capture) c k)) ∧
        (empty_at (ChessVar._game_board before_capture) 0 3 →
           ChessBoard._current_pieces_on_board b' =
           ChessBoard._current_pieces_on_board (ChessVar._game_board before_capture)).
Proof.
  apply (legal_move_effect (ChessVar._game_board before_capture) WHITE 3 6 0 3
           (mkPiece Bishop WHITE)).
  - split.
    + vm_compute. split; [reflexivity | repeat constructor].
    + intros c k. destruct c, k; vm_compute; eexists; reflexivity.
  - unfold in_grid. lia.
  - unfold in_grid. lia.
  - vm_compute. reflexivity.
  - vm_compute. reflexivity.
Defined.

Lemma rejection_changes_nothing_witness :
  ChessBoard._board (ChessVar._game_board ChessVar.__init__) =
    ChessBoard._board (ChessVar._game_board ChessVar.__init__) ∧
  ChessBoard._current_pieces_on_board (ChessVar._game_board ChessVar.__init__) =
    ChessBoard._current_pieces_on_board (ChessVar._game_board ChessVar.__init__) ∧
  ChessVar._player_turn ChessVar.__init__ = ChessVar._player_turn ChessVar.__init__ ∧
  ChessVar._game_state ChessVar.__init__ = ChessVar._game_state ChessVar.__init__ ∧
  ChessVar.__init__ = ChessVar.__init__ ∧
  value (ChessVar.make_move ChessVar.__init__ "A2" "A5") = Ok (false, ChessVar.__init__).
Proof.
  apply (rejection_changes_nothing ChessVar.__init__ ChessVar.__init__ "A2" "A5").
  vm_compute. reflexivity.
Defined.

Lemma turn_flips_after_every_applied_move_witness :
  ChessVar._player_turn after_capture = other (ChessVar._player_turn before_capture).
Proof.
  apply (turn_flips_after_every_applied_move before_capture after_capture "G5" "D8").
  vm_compute. reflexivity.
Defined.

(** C6 as claimed fails: the bishop's capture of the last black queen wins
    the game for WHITE, and the turn has passed to BLACK all the same. *)
Lemma turn_passes_on_winning_move :
  value (ChessVar.make_move before_capture "G5" "D8") = Ok (true, after_capture) ∧
  ChessVar._game_state before_capture = UNFINISHED ∧
  ChessVar._game_state after_capture = WHITE_WON ∧
  ChessVar._player_turn before_capture = WHITE ∧
  ChessVar._player_turn after_capture ≠ ChessVar._player_turn before_capture.
Proof. split_and!; vm_compute; (reflexivity || discriminate). Qed.

Lemma counts_equal_pieces_on_grid_witness :
  stored_count (ChessVar._game_board after_capture) BLACK Queen =
  Some (Z.of_nat (pieces_on_grid (ChessVar._game_board after_capture) BLACK Queen)).
Proof.
  apply (counts_equal_pieces_on_grid after_capture BLACK Queen).
  apply (reachable_make_move before_capture _ "G5" "D8" true);
    [|vm_compute; reflexivity].
  apply (reachable_make_move (game_after (take 3 queen_hunt)) _ "A7" "A6" true);
    [|vm_compute; reflexivity].
  apply (reachable_make_move (game_after (take 2 queen_hunt)) _ "C1" "G5" true);
    [|vm_compute; reflexivity].
  apply (reachable_make_move (game_after (take 1 queen_hunt)) _ "E7" "E5" true);
    [|vm_compute; reflexivity].
  apply (reachable_make_move ChessVar.__init__ _ "D2" "D4" true);
    [|vm_compute; reflexivity].
  apply reachable_init.
Defined.

Lemma game_state_changes_at_most_once_witness :
  (∃ trace,
     value (play ChessVar.__init__
              (queen_hunt ++ [("G5", "D8"); ("A6", "A5")]%string)) = Ok trace ∧
     length trace = length (queen_hunt ++ [("G5", "D8"); ("A6", "A5")]%string) ∧
     changes_at_most_once (UNFINISHED :: (ChessVar._game_state <$> trace))) ∧
  ChessVar.make_move after_capture "A6" "A5" = mkM [] (Ok (false, after_capture)).
Proof.
  destruct (game_state_changes_at_most_once
              (queen_hunt ++ [("G5", "D8"); ("A6", "A5")]%string)) as [Hrun Hstop].
  split; [exact Hrun|].
  apply Hstop. vm_compute. discriminate.
Defined.

Lemma pawn_move_legal_iff_witness :
  value (Pawn.is_valid_move (mkPiece Pawn WHITE) ChessBoard.__init__ WHITE 6 0 4 0)
    = Ok true ↔
  exactly_one (single_step ChessBoard.__init__ WHITE 6 0 4 0)
              (double_step ChessBoard.__init__ WHITE 6 0 4 0)
              (diagonal_capture ChessBoard.__init__ WHITE 6 0 4 0).
Proof.
  apply (pawn_move_legal_iff ChessBoard.__init__ WHITE (mkPiece Pawn WHITE) 6 0 4 0).
  - split; [reflexivity | repeat constructor].
  - unfold in_grid. lia.
  - unfold in_grid. lia.
  - vm_compute. reflexivity.
  - reflexivity.
  - reflexivity.
  - vm_compute. reflexivity.
Defined.

Lemma paths_block_sliders_not_knights_witness :
  value (Rook.is_valid_move (mkPiece Rook WHITE) ChessBoard.__init__ WHITE 7 0 5 0)
    = Ok false ∧
  value (Knight.is_valid_move (mkPiece Knight WHITE) ChessBoard.__init__ WHITE 7 1 5 2)
    = Ok true ∧
  (value (Piece.check_vertical_path ChessBoard.__init__ 6 0 1) = Ok true ↔
   path_clear ChessBoard.__init__ 6 0 1 0).
Proof.
  destruct (paths_block_sliders_not_knights ChessBoard.__init__)
    as (Hrook & Hknight & _ & _ & Hvertical & _).
  { split; [reflexivity | repeat constructor]. }
  split_and!.
  - apply Hrook.
    + unfold in_grid. lia.
    + unfold in_grid. lia.
    + right. reflexivity.
    + exists 6, 0, (mkPiece Pawn WHITE). split.
      * exists 1. vm_compute. repeat split; discriminate.
      * vm_compute. reflexivity.
  - apply Hknight.
    + unfold in_grid. lia.
    + unfold in_grid. lia.
    + right. vm_compute. split; reflexivity.
    + vm_compute. reflexivity.
  - apply Hvertical; unfold in_grid; lia.
Defined.

Lemma king_move_legal_iff_witness :
  value (King.is_valid_move (mkPiece King WHITE)
           (ChessVar._game_board (game_after [("E2", "E4"); ("E7", "E5")]%string))
           WHITE 7 4 6 4) = Ok true ↔
  ¬ (∃ q, piece_at (ChessVar._game_board
                      (game_after [("E2", "E4"); ("E7", "E5")]%string)) 6 4 q ∧
          get_color q = WHITE) ∧
  Z.max (Z.abs (6 - 7)) (Z.abs (4 - 4)) <= 1 ∧
  (7, 4) ≠ (6, 4).
Proof.
  apply (king_move_legal_iff
           (ChessVar._game_board (game_after [("E2", "E4"); ("E7", "E5")]%string))
           WHITE (mkPiece King WHITE) 7 4 6 4).
  - vm_compute. split; [reflexivity | repeat constructor].
  - unfold in_grid. lia.
  - unfold in_grid. lia.
  - vm_compute. reflexivity.
  - reflexivity.
  - reflexivity.
Defined.

Lemma make_move_never_raises_witness :
  (∃ applied g',
     value (ChessVar.make_move ChessVar.__init__ "" "Z9") = Ok (applied, g')) ∧
  Forall cell_in_grid (accesses (ChessVar.make_move ChessVar.__init__ "" "Z9")) ∧
  (∃ valid,
     value (ChessVar.is_valid_input "" "Z9") = Ok valid ∧
     (valid = false →
        ChessVar._game_state ChessVar.__init__ = UNFINISHED →
        ChessVar.make_move ChessVar.__init__ "" "Z9" =
        mkM [] (Ok (false, ChessVar.__init__))) ∧
     (valid = true →
        ∃ fr fc tr tc,
          value (ChessVar.algebraic_to_indices "") = Ok (fr, fc) ∧
          value (ChessVar.algebraic_to_indices "Z9") = Ok (tr, tc) ∧
          in_grid fr fc ∧ in_grid tr tc)).
Proof.
  apply (make_move_never_raises ChessVar.__init__ "" "Z9").
  apply reachable_init.
Defined.

(** ** The sliding pieces and the knight, in full *)

Lemma checked_value (m : M bool) :
  value m = Ok true ∨ value m = Ok false →
  value (clear ← m; if negb clear then mret false else mret true) = value m.
Proof. intros [H|H]; by rewrite value_bind, H. Qed.

Lemma base_value (self : PieceObj) (b : ChessBoard.t) (turn : Color)
    (fr fc tr tc : Z) :
  wf_grid b → in_grid tr tc →
  value (Piece.is_valid_move self b turn fr fc tr tc) = Ok true ↔
  base_ok self b turn tr tc = true.
Proof.
  intros Hwf Ht. rewrite Piece_is_valid_move_eq by done. simpl.
  split; [by intros [= ->] | by intros ->].
Qed.

Lemma path_clear_zero (b : ChessBoard.t) (fr fc : Z) : path_clear b fr fc fr fc.
Proof. intros row col (k & Hk & _). lia. Qed.

(** X1. Between squares of the grid, [Rook.is_valid_move] returns [True]
    exactly when the shared colour check passes, the two squares share a row
    or a column, and every square strictly between them is empty. *)
Theorem rook_move_legal_iff (b : ChessBoard.t) (turn : Color) (self : PieceObj)
    (fr fc tr tc : Z) :
  wf_grid b → in_grid fr fc → in_grid tr tc →
  value (Rook.is_valid_move self b turn fr fc tr tc) = Ok true ↔
  value (Piece.is_valid_move self b turn fr fc tr tc) = Ok true ∧
  (tr = fr ∨ tc = fc) ∧
  path_clear b fr fc tr tc.
Proof.
  intros Hwf Hf Ht. rewrite base_value by done.
  unfold Rook.is_valid_move. rewrite Piece_is_valid_move_eq by done. msimpl.
  destruct (base_ok self b turn tr tc); msimpl; [|by intuition].
  destruct (Z.eqb_spec tr fr) as [->|Hrow].
  - destruct (check_horizontal_path_spec b fr fc tc Hwf Hf Ht) as (_ & Hbool & Hiff).
    rewrite checked_value, Hiff by done. intuition.
  - destruct (Z.eqb_spec tc fc) as [->|Hcol].
    + destruct (check_vertical_path_spec b fr fc tr Hwf Hf Ht) as (_ & Hbool & Hiff).
      rewrite checked_value, Hiff by done. intuition.
    + simpl. split; [done|]. intros (_ & [?|?] & _); done.
Qed.

(** X2. Between squares of the grid, [Bishop.is_valid_move] returns [True]
    exactly when the shared colour check passes, the move is as many rows as
    columns long, and every square strictly between is empty. *)
Theorem bishop_move_legal_iff (b : ChessBoard.t) (turn : Color) (self : PieceObj)
    (fr fc tr tc : Z) :
  wf_grid b → in_grid fr fc → in_grid tr tc →
  value (Bishop.is_valid_move self b turn fr fc tr tc) = Ok true ↔
  value (Piece.is_valid_move self b turn fr fc tr tc) = Ok true ∧
  Z.abs (tr - fr) = Z.abs (tc - fc) ∧
  path_clear b fr fc tr tc.
Proof.
  intros Hwf Hf Ht. rewrite base_value by done.
  unfold Bishop.is_valid_move. rewrite Piece_is_valid_move_eq by done. msimpl.
  destruct (base_ok self b turn tr tc); msimpl; [|by intuition].
  destruct (Z.eqb_spec (Z.abs (tc - fc)) (Z.abs (tr - fr))) as [Hd|Hd].
  - destruct (check_diagonal_path_spec b fr fc tr tc Hwf Hf Ht) as (_ & Hbool & Hiff);
      [done|].
    rewrite checked_value, Hiff by done. intuition.
  - simpl. split; [done|]. intros (_ & ? & _). by destruct Hd.
Qed.

(** X3. Between squares of the grid, the queen may make exactly the moves
    that a rook or a bishop standing in her place may make. *)
Theorem queen_moves_as_rook_or_bishop (b : ChessBoard.t) (turn : Color)
    (self : PieceObj) (fr fc tr tc : Z) :
  wf_grid b → in_grid fr fc → in_grid tr tc →
  value (Queen.is_valid_move self b turn fr fc tr tc) = Ok true ↔
  value (Rook.is_valid_move self b turn fr fc tr tc) = Ok true ∨
  value (Bishop.is_valid_move self b turn fr fc tr tc) = Ok true.
Proof.
  intros Hwf Hf Ht.
  unfold Queen.is_valid_move, Rook.is_valid_move, Bishop.is_valid_move.
  rewrite Piece_is_valid_move_eq by done. msimpl.
  destruct (base_ok self b turn tr tc); msimpl; [|by intuition].
  destruct (Z.eqb_spec tr fr) as [->|Hrow].
  - destruct (check_horizontal_path_spec b fr fc tc Hwf Hf Ht) as (_ & Hbool & Hiff).
    split; [by left|]. intros [?|Hbishop]; [done|].
    destruct (Z.eqb_spec (Z.abs (tc - fc)) (Z.abs (fr - fr))) as [Hd|Hd];
      [|done].
    assert (tc = fc) as -> by lia.
    rewrite checked_value, Hiff by done. apply path_clear_zero.
  - destruct (Z.eqb_spec tc fc) as [->|Hcol].
    + split; [by left|]. intros [?|Hbishop]; [done|].
      destruct (Z.eqb_spec (Z.abs (fc - fc)) (Z.abs (tr - fr))) as [Hd|Hd];
        [lia | done].
    + split; [by right|]. by intros [?|?].
Qed.

(** X4. Between squares of the grid, [Knight.is_valid_move] returns [True]
    exactly when the shared colour check passes and the move is one row by
    two columns or two rows by one column. *)
Theorem knight_move_legal_iff (b : ChessBoard.t) (turn : Color) (self : PieceObj)
    (fr fc tr tc : Z) :
  wf_grid b → in_grid fr fc → in_grid tr tc →
  value (Knight.is_valid_move self b turn fr fc tr tc) = Ok true ↔
  value (Piece.is_valid_move self b turn fr fc tr tc) = Ok true ∧
  L_shape fr fc tr tc.
Proof.
  intros Hwf Hf Ht. rewrite base_value, Knight_is_valid_move_value by done.
  rewrite <- L_shapeb_true.
  destruct (base_ok self b turn tr tc), (L_shapeb fr fc tr tc); simpl;
    intuition congruence.
Qed.

(** ** Tokens and their coordinates *)

Ltac each_ascii a := destruct a as [[] [] [] [] [] [] [] []].

Lemma str_in_letters (a : ascii) :
  str_in (upper (String a "")) ChessVar.valid_letters = file_letterb a.
Proof. each_ascii a; reflexivity. Qed.

Lemma str_in_numbers (d : ascii) :
  str_in (String d "") ChessVar.valid_numbers = rank_digitb d.
Proof. each_ascii d; reflexivity. Qed.

Lemma file_letterb_true (a : ascii) : file_letterb a = true ↔ file_letter a.
Proof.
  unfold file_letterb, file_letter.
  rewrite orb_true_iff, !andb_true_iff, !Nat.leb_le. tauto.
Qed.

Lemma rank_digitb_true (d : ascii) : rank_digitb d = true ↔ rank_digit d.
Proof. unfold rank_digitb, rank_digit. by rewrite andb_true_iff, !Nat.leb_le. Qed.

Lemma letter_to_index_lookup (a : ascii) :
  file_letterb a = true →
  ChessVar.letter_to_index !! upper (String a "") = Some (col_of a).
Proof. each_ascii a; intros H; try discriminate H; vm_compute; reflexivity. Qed.

Lemma letter_to_index_missing (a : ascii) :
  file_letterb a = false →
  ChessVar.letter_to_index !! upper (String a "") = None.
Proof. each_ascii a; intros H; try discriminate H; vm_compute; reflexivity. Qed.

Lemma number_to_index_lookup (d : ascii) :
  rank_digitb d = true →
  ChessVar.number_to_index !! String d "" = Some (row_of d).
Proof. each_ascii d; intros H; try discriminate H; vm_compute; reflexivity. Qed.

Lemma number_to_index_missing (d : ascii) :
  rank_digitb d = false →
  ChessVar.number_to_index !! String d "" = None.
Proof. each_ascii d; intros H; try discriminate H; vm_compute; reflexivity. Qed.

Lemma col_of_range (a : ascii) : file_letter a → 0 <= col_of a <= 7.
Proof.
  intros Ha%file_letterb_true. revert Ha.
  each_ascii a; intros Ha; try discriminate Ha; vm_compute;
    split; discriminate.
Qed.

Lemma str_getitem_0 (a : ascii) (rest : string) :
  str_getitem (String a rest) 0 = Ok (String a "").
Proof.
  unfold str_getitem. rewrite norm_index_in_range by (simpl String.length; lia).
  done.
Qed.

Lemma str_getitem_1 (a d : ascii) (rest : string) :
  str_getitem (String a (String d rest)) 1 = Ok (String d "").
Proof.
  unfold str_getitem. rewrite norm_index_in_range by (simpl String.length; lia).
  done.
Qed.

Lemma malformed_two (a d : ascii) :
  ChessVar.malformed (String a (String d "")) =
  mkM [] (Ok (negb (file_letterb a && rank_digitb d))).
Proof.
  unfold ChessVar.malformed. cbn [String.length Nat.eqb negb].
  rewrite str_getitem_0, str_getitem_1. unfold lift. msimpl.
  rewrite str_in_letters, str_in_numbers.
  destruct (file_letterb a); msimpl; [|done].
  by destruct (rank_digitb d).
Qed.

Lemma malformed_false_iff (s : string) :
  value (ChessVar.malformed s) = Ok false ↔ token s.
Proof.
  unfold token. destruct s as [|a [|d [|? ?]]];
    try (split; [done | by intros (? & ? & ? & _)]).
  rewrite malformed_two. simpl. split.
  - intros [= H]. apply negb_false_iff, andb_true_iff in H as [Ha Hd].
    exists a, d. by rewrite <- file_letterb_true, <- rank_digitb_true.
  - intros (a' & d' & [= <- <-] & Ha%file_letterb_true & Hd%rank_digitb_true).
    by rewrite Ha, Hd.
Qed.

Lemma algebraic_to_indices_outcomes_aux (a d : ascii) (rest : string) :
  file_letter a → rank_digit d →
  ChessVar.algebraic_to_indices (String a (String d rest)) =
  mkM [] (Ok (row_of d, col_of a)).
Proof.
  intros Ha%file_letterb_true Hd%rank_digitb_true.
  unfold ChessVar.algebraic_to_indices.
  rewrite str_getitem_0, str_getitem_1. unfold lift, dict_getitem. msimpl.
  rewrite letter_to_index_lookup by done. msimpl.
  rewrite number_to_index_lookup by done. by msimpl.
Qed.

Lemma is_valid_input_true_iff_aux (from_square to_square : string) :
  value (ChessVar.is_valid_input from_square to_square) = Ok true ↔
  from_square ≠ to_square ∧ token from_square ∧ token to_square.
Proof.
  rewrite <- !malformed_false_iff. unfold ChessVar.is_valid_input.
  destruct (String.eqb_spec from_square to_square) as [Heq|Hne].
  { split; [done | by intros (? & _)]. }
  destruct (malformed_spec from_square) as ([] & -> & _),
           (malformed_spec to_square) as ([] & -> & _); msimpl;
    split; (done || by intros (_ & ? & ?)).
Qed.

(** X5. [is_valid_input] returns for every two strings, and returns [True]
    exactly when the strings differ and each is a file letter [A]..[H] or
    [a]..[h] followed by a rank digit [1]..[8] and nothing else. *)
Theorem is_valid_input_true_iff (from_square to_square : string) :
  (∃ valid, ChessVar.is_valid_input from_square to_square = mkM [] (Ok valid)) ∧
  (value (ChessVar.is_valid_input from_square to_square) = Ok true ↔
   from_square ≠ to_square ∧ token from_square ∧ token to_square).
Proof.
  split.
  { destruct (is_valid_input_spec from_square to_square) as (v & Hv & _).
    by exists v. }
  apply is_valid_input_true_iff_aux.
Qed.

(** X6. What [algebraic_to_indices] does with any string. It reads the first
    two characters only. With a file letter and then a rank digit it returns
    the row [56 - code of the digit] and the column [code of the upper-cased
    letter - 65], whatever follows. The empty string and a lone file letter
    raise [IndexError]; a first character that is no file letter, or a second
    that is no rank digit, raises [KeyError]. *)
Theorem algebraic_to_indices_outcomes :
  value (ChessVar.algebraic_to_indices "") = Raise IndexError ∧
  (∀ a rest, ¬ file_letter a →
     value (ChessVar.algebraic_to_indices (String a rest)) = Raise KeyError) ∧
  (∀ a, file_letter a →
     value (ChessVar.algebraic_to_indices (String a "")) = Raise IndexError) ∧
  (∀ a d rest, file_letter a → ¬ rank_digit d →
     value (ChessVar.algebraic_to_indices (String a (String d rest))) =
     Raise KeyError) ∧
  (∀ a d rest, file_letter a → rank_digit d →
     ChessVar.algebraic_to_indices (String a (String d rest)) =
     mkM [] (Ok (row_of d, col_of a)) ∧
     in_grid (row_of d) (col_of a)).
Proof.
  split_and!.
  - done.
  - intros a rest Ha. unfold ChessVar.algebraic_to_indices.
    rewrite str_getitem_0. unfold lift, dict_getitem. msimpl.
    rewrite letter_to_index_missing; [done|].
    apply not_true_iff_false. by rewrite file_letterb_true.
  - intros a Ha%file_letterb_true. unfold ChessVar.algebraic_to_indices.
    rewrite str_getitem_0. unfold lift, dict_getitem. msimpl.
    by rewrite letter_to_index_lookup.
  - intros a d rest Ha%file_letterb_true Hd.
    unfold ChessVar.algebraic_to_indices.
    rewrite str_getitem_0, str_getitem_1. unfold lift, dict_getitem. msimpl.
    rewrite letter_to_index_lookup by done. msimpl.
    rewrite number_to_index_missing; [done|].
    apply not_true_iff_false. by rewrite rank_digitb_true.
  - intros a d rest Ha Hd. split.
    + by apply algebraic_to_indices_outcomes_aux.
    + split; [unfold row_of, rank_digit in *; lia | by apply col_of_range].
Qed.

Lemma upper_ascii_digit (d : ascii) : rank_digit d → upper_ascii d = d.
Proof.
  intros Hd%rank_digitb_true. revert Hd.
  each_ascii d; intros Hd; try discriminate Hd; reflexivity.
Qed.

Lemma col_of_inj (a a' : ascii) :
  col_of a = col_of a' ↔ upper_ascii a = upper_ascii a'.
Proof.
  unfold col_of. split; [|by intros ->]. intros H.
  rewrite <- (ascii_nat_embedding (upper_ascii a)),
          <- (ascii_nat_embedding (upper_ascii a')).
  f_equal. lia.
Qed.

Lemma row_of_inj (d d' : ascii) : row_of d = row_of d' ↔ d = d'.
Proof.
  unfold row_of. split; [|by intros ->]. intros H.
  rewrite <- (ascii_nat_embedding d), <- (ascii_nat_embedding d').
  f_equal. lia.
Qed.

Lemma token_indices (s : string) :
  token s →
  ∃ a d, s = String a (String d "") ∧ file_letter a ∧ rank_digit d ∧
         ChessVar.algebraic_to_indices s = mkM [] (Ok (row_of d, col_of a)).
Proof.
  intros (a & d & -> & Ha & Hd). exists a, d. split_and!; try done.
  by apply algebraic_to_indices_outcomes_aux.
Qed.

Lemma token_same_square_iff (s s' : string) :
  token s → token s' →
  value (ChessVar.algebraic_to_indices s) =
  value (ChessVar.algebraic_to_indices s') ↔ upper s = upper s'.
Proof.
  intros (a & d & -> & Ha & Hd & ->)%token_indices
         (a' & d' & -> & Ha' & Hd' & ->)%token_indices.
  cbn [value upper].
  rewrite (upper_ascii_digit d), (upper_ascii_digit d') by done. split.
  - intros [= Hrow%row_of_inj Hcol%col_of_inj]. by rewrite Hrow, Hcol.
  - intros [= Hcol%col_of_inj ->]. by rewrite Hcol.
Qed.

(** X7. Well-formed tokens name the squares of the grid, one square per token
    up to the case of the letter: two tokens convert to the same coordinates
    exactly when their upper-cased forms are equal, and every square of the
    grid is the conversion of some token. *)
Theorem tokens_name_squares :
  (∀ s s', token s → token s' →
     value (ChessVar.algebraic_to_indices s) =
     value (ChessVar.algebraic_to_indices s') ↔ upper s = upper s') ∧
  (∀ row col, in_grid row col →
     ∃ s, token s ∧ value (ChessVar.algebraic_to_indices s) = Ok (row, col)).
Proof.
  split.
  - apply token_same_square_iff.
  - intros row col [Hr Hc].
    exists (String (ascii_of_nat (Z.to_nat (65 + col)))
              (String (ascii_of_nat (Z.to_nat (56 - row))) "")).
    assert (row = 0 ∨ row = 1 ∨ row = 2 ∨ row = 3 ∨
            row = 4 ∨ row = 5 ∨ row = 6 ∨ row = 7) as Hrow by lia.
    assert (col = 0 ∨ col = 1 ∨ col = 2 ∨ col = 3 ∨
            col = 4 ∨ col = 5 ∨ col = 6 ∨ col = 7) as Hcol by lia.
    clear Hr Hc.
    decompose [or] Hrow; decompose [or] Hcol; subst; clear;
      (split; [eexists _, _; split; [reflexivity|];
               unfold file_letter, rank_digit; split; vm_compute; lia
              | vm_compute; reflexivity]).
Qed.

(** ** The board outside the contract of a legal move *)

Lemma norm_index_8 (i : Z) :
  norm_index 8 i =
  if decide (-8 <= i <= 7) then Some (Z.to_nat (i mod 8)) else None.
Proof.
  unfold norm_index.
  destruct (Z.leb_spec 0 i), (Z.ltb_spec i (Z.of_nat 8)),
           (Z.leb_spec (- Z.of_nat 8) i), (Z.ltb_spec i 0);
    cbn [andb]; case_decide; try lia; try done; f_equal; f_equal;
    change (Z.of_nat 8) with 8 in *; Z.div_mod_to_equations; lia.
Qed.

(** X8. On a grid of eight rows of eight cells, [get_piece_at] follows
    Python's indexing: for row and column between -8 and 7 it returns the
    cell at the indices taken modulo 8 (a negative index counts from the far
    edge), and for any other index it raises [IndexError]. *)
Theorem get_piece_at_bounds (b : ChessBoard.t) (row col : Z) :
  wf_grid b →
  (-8 <= row <= 7 ∧ -8 <= col <= 7 →
     value (ChessBoard.get_piece_at b row col) =
     value (ChessBoard.get_piece_at b (row mod 8) (col mod 8)) ∧
     in_grid (row mod 8) (col mod 8)) ∧
  (¬ (-8 <= row <= 7 ∧ -8 <= col <= 7) →
     value (ChessBoard.get_piece_at b row col) = Raise IndexError).
Proof.
  intros Hwf. pose proof Hwf as [Hlen Hrows].
  assert (∀ r, 0 <= r <= 7 →
            ∃ l, ChessBoard._board b !! Z.to_nat r = Some l ∧ length l = 8%nat)
    as Hrow.
  { intros r Hr. destruct (wf_grid_row b r Hwf Hr) as (l & ? & ? & _). eauto. }
  assert (∀ r c, value (ChessBoard.get_piece_at b r c) =
            match norm_index 8 r with
            | Some i =>
                match ChessBoard._board b !! i with
                | Some l => list_getitem l c
                | None => Raise IndexError
                end
            | None => Raise IndexError
            end) as Hget.
  { intros r c. unfold ChessBoard.get_piece_at, touch, lift. msimpl.
    unfold list_getitem at 2 3. rewrite Hlen.
    destruct (norm_index 8 r) as [i|]; [|done].
    by destruct (ChessBoard._board b !! i). }
  split.
  - intros [Hr Hc].
    assert (in_grid (row mod 8) (col mod 8)) as Hin.
    { unfold in_grid. pose proof (Z.mod_pos_bound row 8).
      pose proof (Z.mod_pos_bound col 8). lia. }
    split; [|done]. rewrite !Hget, !norm_index_8.
    rewrite !decide_True by (unfold in_grid in Hin; lia).
    rewrite Z.mod_mod by done.
    destruct (Hrow (row mod 8)) as (l & -> & Hl); [apply Hin|].
    unfold list_getitem. rewrite Hl, !norm_index_8.
    rewrite !decide_True by (unfold in_grid in Hin; lia).
    by rewrite Z.mod_mod.
  - intros Hout. rewrite Hget, norm_index_8.
    case_decide as Hr; [|done].
    destruct (Hrow (row mod 8)) as (l & -> & Hl).
    { pose proof (Z.mod_pos_bound row 8). lia. }
    unfold list_getitem. rewrite Hl, norm_index_8.
    rewrite decide_False; [done | lia].
Qed.

(** X9. [remove_piece_from_board] raises [KeyError] when no count is stored
    for the colour and kind. Otherwise it lowers that count by one, whatever
    it was (a count of 0 becomes -1), and leaves the grid and every other
    count as they were. *)
Theorem remove_piece_from_board_outcomes (b : ChessBoard.t) (c : Color) (k : Kind) :
  (stored_count b c k = None →
     value (ChessBoard.remove_piece_from_board b c k) = Raise KeyError) ∧
  (∀ n, stored_count b c k = Some n →
     ∃ b', ChessBoard.remove_piece_from_board b c k = mkM [] (Ok b') ∧
           ChessBoard._board b' = ChessBoard._board b ∧
           stored_count b' c k = Some (n - 1) ∧
           ∀ c' k', (c', k') ≠ (c, k) →
                    stored_count b' c' k' = stored_count b c' k').
Proof.
  unfold stored_count, ChessBoard.remove_piece_from_board, lift, dict_getitem.
  destruct (ChessBoard._current_pieces_on_board b !! c) as [inner|] eqn:Hc;
    simpl; [|by split].
  split.
  - intros Hk. msimpl. by rewrite Hk.
  - intros n Hk. msimpl. rewrite Hk. msimpl. eexists. split_and!; try done; simpl.
    + rewrite lookup_insert_eq. simpl. by rewrite lookup_insert_eq.
    + intros c' k' Hne. destruct (decide (c' = c)) as [->|Hc'].
      * rewrite lookup_insert_eq, Hc. simpl.
        rewrite lookup_insert_ne; [done|]. by intros ->.
      * by rewrite lookup_insert_ne.
Qed.

Lemma cell_moved_any (b : ChessBoard.t) (fr fc tr tc row col : Z) :
  wf_grid b → in_grid fr fc → in_grid tr tc → in_grid row col →
  cell (moved b fr fc tr tc) row col =
  if decide ((fr, fc) = (row, col)) then None
  else if decide ((tr, tc) = (row, col)) then cell b fr fc
  else cell b row col.
Proof.
  intros Hwf Hf Ht Hin. unfold moved.
  assert (wf_grid (captured b (cell b tr tc))) as Hwf1.
  { unfold wf_grid. by rewrite board_captured. }
  rewrite cell_put by (try apply wf_grid_put; done).
  case_decide; [done|].
  rewrite cell_put by done.
  by rewrite !cell_captured.
Qed.

Lemma pieces_moved (b : ChessBoard.t) (fr fc tr tc : Z) (c : Color) (k : Kind) :
  wf_grid b → in_grid fr fc → in_grid tr tc →
  (pieces_on_grid (moved b fr fc tr tc) c k + is_piece c k (cell b tr tc) =
   pieces_on_grid b c k)%nat.
Proof.
  intros Hwf Hf Ht.
  set (b1 := captured b (cell b tr tc)).
  assert (wf_grid b1) as Hwf1.
  { unfold wf_grid, b1. by rewrite board_captured. }
  assert (cell b1 fr fc = cell b fr fc) as Hp1 by apply cell_captured.
  assert (cell b1 tr tc = cell b tr tc) as Ht1 by apply cell_captured.
  assert (pieces_on_grid b1 c k = pieces_on_grid b c k) as Hb1
    by apply pieces_captured.
  pose proof (pieces_put (put b1 tr tc (cell b1 fr fc)) fr fc None c k
                (wf_grid_put _ _ _ _ Hwf1) Hf) as H1.
  pose proof (pieces_put b1 tr tc (cell b1 fr fc) c k Hwf1 Ht) as H2.
  rewrite cell_put in H1 by done.
  assert ((if decide ((tr, tc) = (fr, fc)) then cell b1 fr fc else cell b1 fr fc)
          = cell b1 fr fc) as Hsame by (by case_decide).
  rewrite Hsame, is_piece_None in H1. rewrite Ht1, Hb1 in H2.
  unfold moved. fold b1. lia.
Qed.

(** X10. [move_piece] needs no legal move to keep its books: on a board whose
    counts equal the pieces on its 8x8 grid, for any two squares of the grid
    (the same square twice, an empty source, a target of the mover's own
    colour), it returns a board whose counts again equal the pieces on the
    grid; the source square is empty afterwards, the target square, when it
    is another square, holds what the source held, and no other square
    changes. *)
Theorem move_piece_keeps_counts (b : ChessBoard.t) (fr fc tr tc : Z) :
  wf_grid b → counts_match b → in_grid fr fc → in_grid tr tc →
  ∃ b', value (ChessBoard.move_piece b fr fc tr tc) = Ok b' ∧
        wf_grid b' ∧ counts_match b' ∧
        empty_at b' fr fc ∧
        ((fr, fc) ≠ (tr, tc) →
           value (ChessBoard.get_piece_at b' tr tc) =
           value (ChessBoard.get_piece_at b fr fc)) ∧
        (∀ row col, in_grid row col →
           (row, col) ≠ (fr, fc) → (row, col) ≠ (tr, tc) →
           value (ChessBoard.get_piece_at b' row col) =
           value (ChessBoard.get_piece_at b row col)).
Proof.
  intros Hwf Hm Hf Ht.
  assert (wf_board b) as Hwfb by (split; [done | by apply counts_match_wf]).
  pose proof (wf_board_moved b fr fc tr tc Hwfb) as [Hwf' _].
  exists (moved b fr fc tr tc). split_and!.
  - by rewrite move_piece_eq.
  - done.
  - intros c k. pose proof (pieces_moved b fr fc tr tc c k Hwf Hf Ht) as Hcount.
    rewrite stored_count_moved.
    destruct (cell b tr tc) as [q|] eqn:Hq.
    + rewrite stored_count_captured by (by apply counts_match_wf).
      rewrite is_piece_Some in Hcount. rewrite Hm.
      case_decide; simpl; f_equal; lia.
    + simpl. rewrite Hm. rewrite is_piece_None in Hcount. f_equal. lia.
  - apply empty_at_cell; [done..|]. rewrite cell_moved_any by done.
    by rewrite decide_True.
  - intros Hne. rewrite !get_piece_at_in_grid by done. simpl.
    rewrite cell_moved_any by done.
    by rewrite decide_False, decide_True.
  - intros row col Hin Hnf Hnt. rewrite !get_piece_at_in_grid by done. simpl.
    rewrite cell_moved_any by done.
    by rewrite !decide_False.
Qed.

(** ** Every loop ends *)

Lemma ends_ret {A} (a : A) : ends (mret a : M A).
Proof. done. Qed.

Lemma ends_bind {A B} (m : M A) (f : A → M B) :
  ends m → (∀ a, value m = Ok a → ends (f a)) → ends (m ≫= f).
Proof.
  unfold ends. intros Hm Hf. rewrite value_bind.
  destruct (value m) as [a| |]; [by apply Hf | done | done].
Qed.

Lemma ends_lift {A} (r : result A) : r ≠ OutOfFuel → ends (lift r).
Proof. done. Qed.

Lemma list_getitem_ends {A} (l : list A) (i : Z) : list_getitem l i ≠ OutOfFuel.
Proof.
  unfold list_getitem. destruct (norm_index (length l) i) as [n|]; [|done].
  by destruct (l !! n).
Qed.

Lemma ends_get_piece_at (b : ChessBoard.t) (row col : Z) :
  ends (ChessBoard.get_piece_at b row col).
Proof.
  unfold ChessBoard.get_piece_at.
  apply ends_bind; [done|]. intros _ _.
  apply ends_bind; [apply ends_lift, list_getitem_ends|]. intros r _.
  apply ends_lift, list_getitem_ends.
Qed.

Lemma ends_if {A} (c : bool) (m1 m2 : M A) :
  ends m1 → ends m2 → ends (if c then m1 else m2).
Proof. by destruct c. Qed.

Lemma ends_checked (m : M bool) :
  ends m → ends (clear ← m; if negb clear then mret false else mret true).
Proof. intros Hm. apply ends_bind; [done|]. by intros []. Qed.

(** With the target [n >= 1] steps away along the compared axis, [n] tests of
    the loop condition are enough, on any board and from any square. *)
Lemma while_clear_ends (b : ChessBoard.t) (dr dc : Z) (axis : Axis) (target : Z) :
  along axis dr dc = 1 ∨ along axis dr dc = -1 →
  ∀ (fuel : nat) (n row col : Z),
    1 <= n <= Z.of_nat fuel →
    along axis row col + n * along axis dr dc = target →
    ends (Piece.while_clear fuel b dr dc axis target row col).
Proof.
  intros Hstep fuel.
  induction fuel as [|fuel IH]; intros n row col Hn Htarget; [lia|].
  rewrite while_clear_S, along_add.
  destruct (Z.eqb_spec (along axis row col + along axis dr dc) target) as [Heq|Hne];
    cbn [negb]; [done|].
  apply ends_bind; [apply ends_get_piece_at|].
  intros [q|] _; [done|].
  apply (IH (n - 1)).
  - destruct (decide (n = 1)) as [->|]; [|lia]. destruct Hne. lia.
  - rewrite along_add. destruct Hstep as [Hs|Hs]; rewrite Hs in *; lia.
Qed.

Lemma ends_check_horizontal_path (b : ChessBoard.t) (fr fc tc : Z) :
  ends (Piece.check_horizontal_path b fr fc tc).
Proof.
  unfold Piece.check_horizontal_path. rewrite Z.gtb_ltb.
  destruct (Z.ltb_spec fc tc); [|destruct (Z.ltb_spec tc fc); [|done]].
  - eapply while_clear_ends with (n := tc - fc); [by left | simpl; lia..].
  - eapply while_clear_ends with (n := fc - tc); [by right | simpl; lia..].
Qed.

Lemma ends_check_vertical_path (b : ChessBoard.t) (fr fc tr : Z) :
  ends (Piece.check_vertical_path b fr fc tr).
Proof.
  unfold Piece.check_vertical_path. rewrite Z.gtb_ltb.
  destruct (Z.ltb_spec fr tr); [|destruct (Z.ltb_spec tr fr); [|done]].
  - eapply while_clear_ends with (n := tr - fr); [by left | simpl; lia..].
  - eapply while_clear_ends with (n := fr - tr); [by right | simpl; lia..].
Qed.

Lemma ends_check_diagonal_path (b : ChessBoard.t) (fr fc tr tc : Z) :
  ends (Piece.check_diagonal_path b fr fc tr tc).
Proof.
  unfold Piece.check_diagonal_path. rewrite !Z.gtb_ltb.
  destruct (Z.ltb_spec tr fr), (Z.ltb_spec fc tc), (Z.ltb_spec fr tr),
           (Z.ltb_spec tc fc); cbn [andb]; try done;
    first
      [ eapply while_clear_ends with (n := tc - fc); [by left | simpl; lia..]
      | eapply while_clear_ends with (n := fc - tc); [by right | simpl; lia..] ].
Qed.

Lemma ends_Piece_is_valid_move (p : PieceObj) (b : ChessBoard.t) (turn : Color)
    (fr fc tr tc : Z) :
  ends (Piece.is_valid_move p b turn fr fc tr tc).
Proof.
  unfold Piece.is_valid_move. apply ends_if; [done|].
  apply ends_bind; [apply ends_get_piece_at|].
  intros [q|] _; [by apply ends_if | done].
Qed.

Lemma ends_is_valid_move (p : PieceObj) (b : ChessBoard.t) (turn : Color)
    (fr fc tr tc : Z) :
  ends (is_valid_move p b turn fr fc tr tc).
Proof.
  unfold is_valid_move, King.is_valid_move, Queen.is_valid_move,
    Rook.is_valid_move, Bishop.is_valid_move, Knight.is_valid_move,
    Pawn.is_valid_move.
  destruct (class_name p);
    (apply ends_bind; [apply ends_Piece_is_valid_move|]);
    intros [] _; cbn [negb]; try done;
    try destruct turn;
    repeat first
      [ done
      | apply ends_check_horizontal_path
      | apply ends_check_vertical_path
      | apply ends_check_diagonal_path
      | apply ends_checked
      | apply ends_bind; [apply ends_get_piece_at | intros ? _]
      | apply ends_if ].
Qed.

Lemma ends_for_each {A} (l : list A) (body : A → M unit) :
  (∀ x, ends (body x)) → ends (for_each l body).
Proof.
  intros Hbody. induction l as [|x l IH]; [done|].
  simpl. apply ends_bind; [done | by intros].
Qed.

(** X11. The loops of the program end on every input. Each path check tests
    its loop condition at most as often as the two squares are columns (for
    the vertical check, rows) apart, so the three path checks, the legality
    check of every piece and [make_move] itself return or raise for every
    board, well formed or not, every integer coordinates and every two
    strings. *)
Theorem every_loop_ends :
  (∀ b fr fc tc, value (Piece.check_horizontal_path b fr fc tc) ≠ OutOfFuel) ∧
  (∀ b fr fc tr, value (Piece.check_vertical_path b fr fc tr) ≠ OutOfFuel) ∧
  (∀ b fr fc tr tc, value (Piece.check_diagonal_path b fr fc tr tc) ≠ OutOfFuel) ∧
  (∀ p b turn fr fc tr tc,
     value (is_valid_move p b turn fr fc tr tc) ≠ OutOfFuel) ∧
  (∀ g from_square to_square,
     value (ChessVar.make_move g from_square to_square) ≠ OutOfFuel).
Proof.
  split_and!.
  - apply ends_check_horizontal_path.
  - apply ends_check_vertical_path.
  - apply ends_check_diagonal_path.
  - apply ends_is_valid_move.
  - intros g f t. change (ends (ChessVar.make_move g f t)).
    unfold ChessVar.make_move. apply ends_if; [done|].
    destruct (is_valid_input_spec f t) as (valid & -> & _).
    apply ends_bind; [done|]. intros [] _; cbn [negb]; [|done].
    assert (∀ s, ends (ChessVar.algebraic_to_indices s)) as Hconv.
    { intros s. unfold ChessVar.algebraic_to_indices, lift, str_getitem, dict_getitem.
      apply ends_bind.
      { destruct (norm_index _ _); [|done]. by destruct (String.get _ _). }
      intros c0 _. apply ends_bind; [by destruct (_ !! _)|].
      intros col _. apply ends_bind.
      { destruct (norm_index _ _); [|done]. by destruct (String.get _ _). }
      intros c1 _. apply ends_bind; [by destruct (_ !! _)|]. done. }
    apply ends_bind; [apply Hconv|]. intros [fr fc] _.
    apply ends_bind; [apply Hconv|]. intros [tr tc] _.
    apply ends_bind; [apply ends_get_piece_at|]. intros [piece|] _; [|done].
    apply ends_bind; [apply ends_is_valid_move|]. intros [] _; cbn [negb]; [|done].
    apply ends_bind.
    { unfold ChessBoard.move_piece, ChessBoard.set_piece_at,
        ChessBoard.remove_piece_from_board, lift, touch, dict_getitem.
      repeat first
        [ done
        | apply list_getitem_ends
        | apply ends_bind; [|intros ? _]
        | match goal with
          | |- ends (match ?x with _ => _ end) => destruct x
          | |- ends (mkM _ (match ?x with _ => _ end)) => destruct x
          | |- ends (mkM _ (list_getitem _ _)) => apply list_getitem_ends
          | |- ends (mkM _ (list_setitem _ _ _)) =>
              unfold list_setitem; destruct (norm_index _ _)
          end ]. }
    intros board _. apply ends_bind.
    { unfold ChessVar.set_game_state, lift, dict_getitem.
      repeat first
        [ done
        | apply ends_bind; [|intros ? _]
        | match goal with
          | |- ends (mkM _ (match ?x with _ => _ end)) => destruct x
          end ]. }
    intros g1 _. apply ends_bind; [|done].
    unfold ChessVar.display_board_and_game_status, ChessBoard.display_board.
    apply ends_for_each. intros row. apply ends_for_each. intros col.
    apply ends_bind; [apply ends_get_piece_at|]. intros [q|] _; [|done].
    apply ends_bind; [apply ends_get_piece_at | done].
Qed.

(** ** Applied moves *)

(** Everything an applied move tells, for a game that keeps the invariant. *)
Lemma applied_move_board (g g' : ChessVar.t) (from_square to_square : string) :
  Inv g →
  value (ChessVar.make_move g from_square to_square) = Ok (true, g') →
  ∃ fr fc tr tc p,
    token from_square ∧ token to_square ∧
    ChessVar.algebraic_to_indices from_square = mkM [] (Ok (fr, fc)) ∧
    ChessVar.algebraic_to_indices to_square = mkM [] (Ok (tr, tc)) ∧
    in_grid fr fc ∧ in_grid tr tc ∧
    cell (ChessVar._game_board g) fr fc = Some p ∧
    value (is_valid_move p (ChessVar._game_board g) (ChessVar._player_turn g)
             fr fc tr tc) = Ok true ∧
    (fr, fc) ≠ (tr, tc) ∧
    get_color p = ChessVar._player_turn g ∧
    (∀ q, cell (ChessVar._game_board g) tr tc = Some q →
          get_color q = other (ChessVar._player_turn g)) ∧
    ChessVar._game_state g = UNFINISHED ∧
    ChessVar._game_board g' = moved (ChessVar._game_board g) fr fc tr tc ∧
    ChessVar._player_turn g' = other (ChessVar._player_turn g) ∧
    decided (ChessVar._game_board g') UNFINISHED (ChessVar._game_state g').
Proof.
  intros [Hwf Hm] [[? _]|(_ & Hst & H)]%make_move_inv; [done|].
  assert (wf_board (ChessVar._game_board g)) as Hwfb
    by (split; [done | by apply counts_match_wf]).
  destruct H as (fr & fc & tr & tc & piece & board & g1 &
                 Hvalid & Hfrom & Hto & Hpiece & Hlegal & Hmove & Hstate & ->).
  destruct (is_valid_input_spec from_square to_square) as (v & Hv & Hcoords).
  pose proof Hvalid as (_ & Htf & Htt)%is_valid_input_true_iff_aux.
  rewrite Hv in Hvalid. injection Hvalid as ->.
  destruct Hcoords as (fr' & fc' & tr' & tc' & Hfrom' & Hto' & Hf & Ht); [done|].
  rewrite Hfrom' in Hfrom. rewrite Hto' in Hto.
  injection Hfrom as -> ->. injection Hto as -> ->.
  apply piece_at_cell in Hpiece; [|done..].
  destruct (legal_move_squares _ _ _ _ _ _ _ Hwf Hf Ht Hpiece Hlegal)
    as (Hne & Hcol & Hopp).
  rewrite move_piece_eq in Hmove by done. injection Hmove as <-.
  apply set_game_state_inv in Hstate as (Hboard & Hturn & Hdecided).
  simpl in Hboard, Hturn, Hdecided. rewrite Hst in Hdecided.
  exists fr, fc, tr, tc, piece. rewrite set_player_turn_spec. simpl.
  rewrite Hboard, Hturn. split_and!; try done.
  intros q Hq. specialize (Hopp q Hq).
  by destruct (get_color q), (ChessVar._player_turn g).
Qed.

(** X12. In a reachable game a call of [make_move] applies the move exactly
    when the game is unfinished, the two strings are distinct well-formed
    tokens, the source square holds a piece and that piece reports the move
    legal. An applied move starts from a piece of the player to move, ends
    on another square that was empty or held an opposing piece, and leaves
    the board that [move_piece] returns. *)
Theorem make_move_applies_iff (g : ChessVar.t) (from_square to_square : string) :
  reachable g →
  (∃ g', value (ChessVar.make_move g from_square to_square) = Ok (true, g')) ↔
  ChessVar._game_state g = UNFINISHED ∧
  from_square ≠ to_square ∧ token from_square ∧ token to_square ∧
  ∃ fr fc tr tc p,
    value (ChessVar.algebraic_to_indices from_square) = Ok (fr, fc) ∧
    value (ChessVar.algebraic_to_indices to_square) = Ok (tr, tc) ∧
    piece_at (ChessVar._game_board g) fr fc p ∧
    value (is_valid_move p (ChessVar._game_board g) (ChessVar._player_turn g)
             fr fc tr tc) = Ok true.
Proof.
  intros Hinv%reachable_Inv. split.
  - intros [g' Happlied].
    pose proof Happlied as [[? _]|(_ & _ & H)]%make_move_inv; [done|].
    destruct H as (? & ? & ? & ? & ? & ? & ? & Hvalid & _).
    apply is_valid_input_true_iff_aux in Hvalid as (Hne & _ & _).
    destruct (applied_move_board _ _ _ _ Hinv Happlied)
      as (fr & fc & tr & tc & p & Htf & Htt & Hfrom & Hto & Hf & Ht & Hp & Hlegal
          & _ & _ & _ & Hst & _).
    split_and!; try done. exists fr, fc, tr, tc, p.
    rewrite Hfrom, Hto. split_and!; try done.
    apply piece_at_cell; [apply Hinv | done..].
  - intros (Hst & Hne & Htf & Htt & fr & fc & tr & tc & p
            & Hfrom & Hto & Hp & Hlegal).
    destruct (make_move_safe g from_square to_square Hinv)
      as [[[applied g'] Hres] _].
    destruct applied; [by exists g'|]. exfalso.
    revert Hres. unfold ChessVar.make_move.
    rewrite bool_decide_eq_true_2 by done. cbn [negb].
    assert (value (ChessVar.is_valid_input from_square to_square) = Ok true)
      as Hvalid by (by apply is_valid_input_true_iff_aux).
    rewrite value_bind, Hvalid. cbn [negb].
    rewrite value_bind, Hfrom, value_bind, Hto, value_bind, Hp.
    rewrite value_bind, Hlegal. cbn [negb].
    intros ([] & _ & Hrest)%bind_Ok_inv.
    apply bind_Ok_inv in Hrest as (g1 & _ & Hrest).
    apply bind_Ok_inv in Hrest as ([] & _ & Hrest). done.
Qed.

(** ** The state, the counts and the winner *)

Lemma stored_count_after_move (b : ChessBoard.t) (fr fc tr tc : Z) (c : Color)
    (k : Kind) (n : Z) :
  wf_counts b →
  stored_count b c k = Some n →
  stored_count (moved b fr fc tr tc) c k =
  Some (if decide (cell b tr tc = Some (mkPiece k c)) then n - 1 else n).
Proof.
  intros Hwf Hn. rewrite stored_count_moved.
  destruct (cell b tr tc) as [[k' c']|] eqn:Hq.
  - rewrite stored_count_captured, Hn by done. simpl.
    case_decide as H1; case_decide as H2; try done.
    + destruct H1 as [-> ->]. by destruct H2.
    + injection H2 as -> ->. by destruct H1.
  - rewrite decide_False by done. simpl. by rewrite Hn.
Qed.

Lemma any_zero_after_move (g : ChessVar.t) (fr fc tr tc : Z) (c : Color) :
  counts_match (ChessVar._game_board g) →
  ¬ any_zero (ChessVar._game_board g) c →
  (∀ q, cell (ChessVar._game_board g) tr tc = Some q → get_color q ≠ c) →
  ¬ any_zero (moved (ChessVar._game_board g) fr fc tr tc) c.
Proof.
  intros Hm Hzero Hopp [k Hk].
  rewrite (stored_count_after_move _ _ _ _ _ _ _ _ (counts_match_wf _ Hm) (Hm c k))
    in Hk.
  case_decide as Hcell; [by destruct (Hopp _ Hcell)|].
  apply Hzero. exists k. by rewrite Hm, Hk.
Qed.

Lemma any_zero_dec (b : ChessBoard.t) (c : Color) : any_zero b c ∨ ¬ any_zero b c.
Proof.
  destruct (ChessBoard._current_pieces_on_board b !! c) as [inner|] eqn:Hc.
  - pose proof (any_zero_lookup b c inner Hc) as Hiff.
    destruct (zero_in_values inner); [left | right]; [by apply Hiff|].
    by intros ?%Hiff.
  - right. intros [k Hk]. unfold stored_count in Hk. by rewrite Hc in Hk.
Qed.

Lemma state_matches_counts_step (g g' : ChessVar.t) (from_square to_square : string)
    (applied : bool) :
  Inv g → state_matches_counts g →
  value (ChessVar.make_move g from_square to_square) = Ok (applied, g') →
  state_matches_counts g'.
Proof.
  intros Hinv Hs Hstep. destruct applied;
    [|by apply make_move_inv in Hstep as [[_ ->]|[? _]]].
  destruct (applied_move_board _ _ _ _ Hinv Hstep)
    as (fr & fc & tr & tc & p & _ & _ & _ & _ & _ & _ & _ & _ & _ & _ & Hopp
        & Hst & Hboard & Hturn & Hdecided).
  unfold state_matches_counts in *. rewrite Hst in Hs. destruct Hs as [HnW HnB].
  destruct Hinv as [_ Hm].
  assert (¬ any_zero (ChessVar._game_board g') (ChessVar._player_turn g)) as Hown.
  { rewrite Hboard. apply any_zero_after_move; [done | |].
    - by destruct (ChessVar._player_turn g).
    - intros q Hq Hc. specialize (Hopp q Hq). rewrite Hc in Hopp.
      by destruct (ChessVar._player_turn g). }
  destruct Hdecided as (HB & HW & HU). rewrite Hturn.
  destruct (any_zero_dec (ChessVar._game_board g') BLACK) as [zB|nB].
  - rewrite (HB zB). destruct (ChessVar._player_turn g); by split_and!.
  - destruct (any_zero_dec (ChessVar._game_board g') WHITE) as [zW|nW].
    + rewrite (HW nB zW). destruct (ChessVar._player_turn g); by split_and!.
    + by rewrite (HU nB nW).
Qed.

Lemma reachable_state_matches (g : ChessVar.t) :
  reachable g → state_matches_counts g.
Proof.
  induction 1 as [|g g' f t applied Hreach IH Hstep].
  - split; intros [k Hk]; destruct k; vm_compute in Hk; discriminate.
  - eapply state_matches_counts_step; [by apply reachable_Inv | done..].
Qed.

(** X13. In every reachable game the state tells what the counts are: it is
    WHITE_WON exactly when some BLACK count is 0, BLACK_WON exactly when some
    WHITE count is 0, UNFINISHED exactly when no count is 0; the two colours
    never both have a count of 0, and in a won game the turn has passed to
    the loser. *)
Theorem state_reflects_counts (g : ChessVar.t) :
  reachable g →
  (ChessVar._game_state g = WHITE_WON ↔ any_zero (ChessVar._game_board g) BLACK) ∧
  (ChessVar._game_state g = BLACK_WON ↔ any_zero (ChessVar._game_board g) WHITE) ∧
  (ChessVar._game_state g = UNFINISHED ↔
     ¬ any_zero (ChessVar._game_board g) WHITE ∧
     ¬ any_zero (ChessVar._game_board g) BLACK) ∧
  ¬ (any_zero (ChessVar._game_board g) WHITE ∧
     any_zero (ChessVar._game_board g) BLACK) ∧
  (ChessVar._game_state g = WHITE_WON → ChessVar._player_turn g = BLACK) ∧
  (ChessVar._game_state g = BLACK_WON → ChessVar._player_turn g = WHITE).
Proof.
  intros Hs%reachable_state_matches. unfold state_matches_counts in Hs.
  destruct (ChessVar._game_state g); intuition congruence.
Qed.

(** X14. In a reachable game only the player who moves can win, and only by
    taking the last piece of a kind: after an applied move the game is won
    exactly when the target square held a piece whose stored count was 1,
    and then the winner is the colour that moved. *)
Theorem only_the_mover_wins (g g' : ChessVar.t) (from_square to_square : string) :
  reachable g →
  value (ChessVar.make_move g from_square to_square) = Ok (true, g') →
  (ChessVar._game_state g' ≠ UNFINISHED ↔
   ∃ tr tc q,
     value (ChessVar.algebraic_to_indices to_square) = Ok (tr, tc) ∧
     piece_at (ChessVar._game_board g) tr tc q ∧
     stored_count (ChessVar._game_board g) (get_color q) (class_name q) = Some 1) ∧
  (ChessVar._game_state g' = UNFINISHED ∨
   ChessVar._player_turn g = WHITE ∧ ChessVar._game_state g' = WHITE_WON ∨
   ChessVar._player_turn g = BLACK ∧ ChessVar._game_state g' = BLACK_WON).
Proof.
  intros Hreach Hstep.
  pose proof (reachable_Inv g Hreach) as Hinv.
  pose proof (reachable_state_matches g Hreach) as Hs.
  pose proof (reachable_state_matches g'
                (reachable_make_move _ _ _ _ _ Hreach Hstep)) as Hs'.
  destruct (applied_move_board _ _ _ _ Hinv Hstep)
    as (fr & fc & tr & tc & p & _ & _ & _ & Hto & _ & Ht & _ & _ & _ & _ & _
        & Hst & Hboard & Hturn & _).
  destruct Hinv as [Hwf Hm]. pose proof (counts_match_wf _ Hm) as Hwfc.
  unfold state_matches_counts in Hs, Hs'. rewrite Hst in Hs.
  destruct Hs as [HnW HnB]. rewrite Hturn in Hs'.
  assert (∀ c, ¬ any_zero (ChessVar._game_board g) c) as Hnone
    by (by intros []).
  assert (∀ c, any_zero (ChessVar._game_board g') c ↔
               ∃ q, cell (ChessVar._game_board g) tr tc = Some q ∧ get_color q = c ∧
                    stored_count (ChessVar._game_board g) (get_color q)
                      (class_name q) = Some 1) as Hzero.
  { intros c. rewrite Hboard. split.
    - intros [k Hk].
      rewrite (stored_count_after_move _ _ _ _ _ _ _ _ Hwfc (Hm c k)) in Hk.
      case_decide as Hcell.
      + exists (mkPiece k c). split_and!; [done..|]. simpl. rewrite Hm.
        f_equal. injection Hk as Hk. lia.
      + destruct (Hnone c). exists k. by rewrite Hm, Hk.
    - intros ([k c'] & Hcell & <- & Hone). simpl in *. exists k.
      rewrite (stored_count_after_move _ _ _ _ _ _ _ _ Hwfc Hone).
      by rewrite decide_True. }
  assert (ChessVar._game_state g' ≠ UNFINISHED ↔
          ∃ c, any_zero (ChessVar._game_board g') c) as Hwon.
  { destruct (ChessVar._game_state g'); split; try done.
    - intros [[] ?]; by destruct Hs'.
    - intros _. exists BLACK. apply Hs'.
    - intros _. exists WHITE. apply Hs'. }
  split.
  - rewrite Hwon, Hto. simpl. split.
    + intros (c & (q & Hq & _ & Hone)%Hzero). exists tr, tc, q.
      split_and!; [done | by apply piece_at_cell | done].
    + intros (tr' & tc' & q & [= <- <-] & Hq%piece_at_cell & Hone); [|done..].
      exists (get_color q). apply Hzero. by exists q.
  - destruct (ChessVar._game_state g'); [by left | right; left | right; right];
      destruct Hs' as (_ & _ & Hother);
      by destruct (ChessVar._player_turn g).
Qed.

Lemma counts_bounded_step (g g' : ChessVar.t) (from_square to_square : string)
    (applied : bool) :
  Inv g → counts_bounded (ChessVar._game_board g) →
  value (ChessVar.make_move g from_square to_square) = Ok (applied, g') →
  counts_bounded (ChessVar._game_board g').
Proof.
  intros Hinv Hb Hstep. destruct applied;
    [|by apply make_move_inv in Hstep as [[_ ->]|[? _]]].
  destruct (applied_move_board _ _ _ _ Hinv Hstep)
    as (fr & fc & tr & tc & p & _ & _ & _ & _ & _ & _ & _ & _ & _ & _ & _
        & _ & Hboard & _ & _).
  destruct Hinv as [_ Hm]. rewrite Hboard. intros c k n Hn.
  rewrite (stored_count_after_move _ _ _ _ _ _ _ _ (counts_match_wf _ Hm) (Hm c k))
    in Hn.
  destruct (Hb c k _ (Hm c k)) as (n0 & Hn0 & Hle). exists n0. split; [done|].
  injection Hn as <-. case_decide; lia.
Qed.

(** X15. In every reachable game each stored count lies between 0 and the
    count the board starts with for that kind (1 king, 1 queen, 2 rooks,
    2 bishops, 2 knights, 8 pawns): the decrement without a check never
    drives a count below 0. *)
Theorem counts_within_bounds (g : ChessVar.t) (c : Color) (k : Kind) :
  reachable g →
  ∃ n n0, stored_count (ChessVar._game_board g) c k = Some n ∧
          ChessBoard.full_set !! k = Some n0 ∧
          0 <= n <= n0.
Proof.
  intros Hreach.
  assert (counts_bounded (ChessVar._game_board g)) as Hb.
  { induction Hreach as [|g g' f t applied Hreach IH Hstep].
    - intros c' k' n Hn. exists n. split; [|lia].
      by destruct c', k'; vm_compute in Hn; injection Hn as <-.
    - eapply counts_bounded_step; [by apply reachable_Inv | done..]. }
  destruct (reachable_Inv g Hreach) as [_ Hm].
  destruct (Hb c k _ (Hm c k)) as (n0 & Hn0 & Hle).
  exists (Z.of_nat (pieces_on_grid (ChessVar._game_board g) c k)), n0.
  split_and!; [apply Hm | done | lia | done].
Qed.

(** ** The case of the file letter *)

Lemma file_letterb_upper (a : ascii) : file_letterb (upper_ascii a) = file_letterb a.
Proof. each_ascii a; reflexivity. Qed.

Lemma rank_digitb_upper (d : ascii) : rank_digitb (upper_ascii d) = rank_digitb d.
Proof. each_ascii d; reflexivity. Qed.

Lemma upper_ascii_idemp (a : ascii) : upper_ascii (upper_ascii a) = upper_ascii a.
Proof. each_ascii a; reflexivity. Qed.

Lemma malformed_upper (s : string) :
  ChessVar.malformed (upper s) = ChessVar.malformed s.
Proof.
  destruct s as [|a [|d [|? ?]]]; try done.
  cbn [upper]. by rewrite !malformed_two, file_letterb_upper, rank_digitb_upper.
Qed.

Lemma token_upper (s : string) : token (upper s) ↔ token s.
Proof. by rewrite <- !malformed_false_iff, malformed_upper. Qed.

Lemma algebraic_to_indices_upper (s : string) :
  token s →
  ChessVar.algebraic_to_indices (upper s) = ChessVar.algebraic_to_indices s.
Proof.
  intros Hs. pose proof Hs as Hu%token_upper.
  destruct (token_indices s Hs) as (a & d & -> & Ha & Hd & ->).
  destruct (token_indices _ Hu) as (a' & d' & Heq & _ & _ & ->).
  cbn [upper] in Heq. injection Heq as <- <-.
  rewrite (upper_ascii_digit d) by done.
  unfold col_of. by rewrite upper_ascii_idemp.
Qed.

Lemma make_move_invalid (g : ChessVar.t) (from_square to_square : string) :
  value (ChessVar.is_valid_input from_square to_square) = Ok false →
  value (ChessVar.make_move g from_square to_square) = Ok (false, g).
Proof.
  intros Hv. unfold ChessVar.make_move.
  case_bool_decide; cbn [negb]; [|done].
  by rewrite value_bind, Hv.
Qed.

Lemma is_valid_input_false (from_square to_square : string) :
  ¬ (from_square ≠ to_square ∧ token from_square ∧ token to_square) →
  value (ChessVar.is_valid_input from_square to_square) = Ok false.
Proof.
  intros Hno. destruct (is_valid_input_spec from_square to_square)
    as ([] & Hv & _); rewrite Hv; [|done].
  destruct Hno. apply is_valid_input_true_iff_aux. by rewrite Hv.
Qed.

(** X16. In a reachable game [make_move] does not depend on the case of the
    file letters: with both strings upper-cased it returns the same boolean
    and leaves the same game. This covers two spellings of one square
    ("a2" and "A2"), which pass the validity test as distinct strings and
    are then rejected by the colour check. *)
Theorem make_move_ignores_case (g : ChessVar.t) (from_square to_square : string) :
  reachable g →
  value (ChessVar.make_move g (upper from_square) (upper to_square)) =
  value (ChessVar.make_move g from_square to_square).
Proof.
  intros Hinv%reachable_Inv.
  assert (from_square ≠ to_square ∧ token from_square ∧ token to_square ∨
          ¬ (from_square ≠ to_square ∧ token from_square ∧ token to_square))
    as [(Hne & Hf & Ht)|Hno].
  { rewrite <- is_valid_input_true_iff_aux.
    destruct (is_valid_input_spec from_square to_square) as ([] & -> & _);
      [by left | by right]. }
  - destruct (decide (upper from_square = upper to_square)) as [Heq|Hneq].
    + (* one square, spelled in two ways *)
      rewrite (make_move_invalid g (upper from_square)).
      2:{ apply is_valid_input_false. by intros (? & _). }
      destruct (make_move_safe g from_square to_square Hinv)
        as [[[applied g'] Hres] _].
      rewrite Hres. destruct applied.
      * destruct (applied_move_board _ _ _ _ Hinv Hres)
          as (fr & fc & tr & tc & p & _ & _ & Hfrom & Hto & _ & _ & _ & _ & Hdiff & _).
        apply (token_same_square_iff from_square to_square Hf Ht) in Heq.
        rewrite Hfrom, Hto in Heq. simpl in Heq. by injection Heq as -> ->.
      * by apply make_move_inv in Hres as [[_ ->]|[? _]].
    + assert (ChessVar.is_valid_input (upper from_square) (upper to_square) =
              ChessVar.is_valid_input from_square to_square) as Hvalid.
      { destruct (is_valid_input_spec from_square to_square) as (v & Hv & _).
        destruct (is_valid_input_spec (upper from_square) (upper to_square))
          as (v' & Hv' & _).
        rewrite Hv, Hv'. do 2 f_equal.
        assert (v = true) as ->.
        { apply (f_equal value) in Hv. simpl in Hv.
          destruct v; [done|].
          by rewrite (proj2 (is_valid_input_true_iff_aux _ _)) in Hv. }
        apply (f_equal value) in Hv'. simpl in Hv'.
        destruct v'; [done|].
        rewrite (proj2 (is_valid_input_true_iff_aux _ _)) in Hv'; [done|].
        by rewrite !token_upper. }
      unfold ChessVar.make_move.
      by rewrite Hvalid, !algebraic_to_indices_upper.
  - rewrite !make_move_invalid; [done | by apply is_valid_input_false |].
    apply is_valid_input_false. intros (Hne & Hf & Ht).
    apply (proj1 (token_upper _)) in Hf. apply (proj1 (token_upper _)) in Ht.
    apply Hno. split_and!; [|done..]. by intros ->.
Qed.

(** ** Recomputing the state, and the glyphs *)

Lemma set_game_state_eq (g : ChessVar.t) (w bl : gmap Kind Z) :
  ChessBoard._current_pieces_on_board (ChessVar._game_board g) !! WHITE = Some w →
  ChessBoard._current_pieces_on_board (ChessVar._game_board g) !! BLACK = Some bl →
  ChessVar.set_game_state g =
  mkM [] (Ok (ChessVar.mk (ChessVar._game_board g) (ChessVar._player_turn g)
                (if zero_in_values bl then WHITE_WON
                 else if zero_in_values w then BLACK_WON
                 else ChessVar._game_state g))).
Proof.
  intros Hw Hbl.
  unfold ChessVar.set_game_state, ChessBoard.get_current_pieces_on_board,
    lift, dict_getitem.
  rewrite Hw. msimpl.
  assert (ChessVar._game_board
            (if zero_in_values w
             then ChessVar.mk (ChessVar._game_board g) (ChessVar._player_turn g)
                    BLACK_WON
             else g) = ChessVar._game_board g) as -> by (by destruct (zero_in_values w)).
  rewrite Hbl. msimpl.
  destruct g as [b t s]. simpl.
  by destruct (zero_in_values w), (zero_in_values bl).
Qed.

(** X17. [set_game_state] raises [KeyError] when the dictionary of counts
    lacks a colour. When it returns, running it again changes nothing, and a
    state that was decided is still decided (possibly for the other colour,
    never UNFINISHED). *)
Theorem set_game_state_settles (g : ChessVar.t) :
  (ChessBoard._current_pieces_on_board (ChessVar._game_board g) !! WHITE = None ∨
   ChessBoard._current_pieces_on_board (ChessVar._game_board g) !! BLACK = None →
     value (ChessVar.set_game_state g) = Raise KeyError) ∧
  (∀ g1, value (ChessVar.set_game_state g) = Ok g1 →
     ChessVar.set_game_state g1 = mkM [] (Ok g1) ∧
     (ChessVar._game_state g ≠ UNFINISHED →
      ChessVar._game_state g1 ≠ UNFINISHED)).
Proof.
  destruct (ChessBoard._current_pieces_on_board (ChessVar._game_board g) !! WHITE)
    as [w|] eqn:Hw;
  destruct (ChessBoard._current_pieces_on_board (ChessVar._game_board g) !! BLACK)
    as [bl|] eqn:Hbl.
  - split; [by intros [?|?]|]. intros g1.
    rewrite (set_game_state_eq g w bl) by done. intros [= <-]. split.
    + rewrite (set_game_state_eq _ w bl) by done. simpl.
      by destruct (zero_in_values bl), (zero_in_values w).
    + simpl. by destruct (zero_in_values bl), (zero_in_values w).
  - assert (value (ChessVar.set_game_state g) = Raise KeyError) as Hraise.
    { unfold ChessVar.set_game_state, ChessBoard.get_current_pieces_on_board,
        lift, dict_getitem.
      rewrite Hw. msimpl.
      assert (ChessVar._game_board
                (if zero_in_values w
                 then ChessVar.mk (ChessVar._game_board g) (ChessVar._player_turn g)
                        BLACK_WON
                 else g) = ChessVar._game_board g) as ->
        by (by destruct (zero_in_values w)).
      by rewrite Hbl. }
    split; [done|]. intros g1. by rewrite Hraise.
  - assert (value (ChessVar.set_game_state g) = Raise KeyError) as Hraise.
    { unfold ChessVar.set_game_state, ChessBoard.get_current_pieces_on_board,
        lift, dict_getitem.
      by rewrite Hw. }
    split; [done|]. intros g1. by rewrite Hraise.
  - assert (value (ChessVar.set_game_state g) = Raise KeyError) as Hraise.
    { unfold ChessVar.set_game_state, ChessBoard.get_current_pieces_on_board,
        lift, dict_getitem.
      by rewrite Hw. }
    split; [done|]. intros g1. by rewrite Hraise.
Qed.

(** X18. No two pieces are shown alike: pieces that differ in class or
    colour have different glyphs. *)
Theorem repr_injective (p q : PieceObj) : repr p = repr q → p = q.
Proof.
  destruct p as [[] []], q as [[] []]; vm_compute; intros H;
    first [reflexivity | discriminate H].
Qed.

(** ** Pawns only advance *)

Lemma pawn_legal_forward (self : PieceObj) (b : ChessBoard.t) (turn : Color)
    (fr fc tr tc : Z) :
  wf_grid b → in_grid tr tc →
  value (Pawn.is_valid_move self b turn fr fc tr tc) = Ok true →
  tr = fr + forward turn ∨ tr = fr + 2 * forward turn.
Proof.
  intros Hwf Ht. unfold Pawn.is_valid_move.
  rewrite Piece_is_valid_move_eq by done. msimpl.
  destruct (base_ok self b turn tr tc); msimpl; [|done].
  destruct turn; cbn [forward];
    repeat match goal with
    | |- context [if ?c then _ else _] =>
        lazymatch c with
        | bool_decide _ => fail
        | _ => destruct c eqn:?
        end
    end;
    repeat match goal with
    | H : _ && _ = true |- _ => apply andb_true_iff in H as [? ?]
    | H : _ || _ = true |- _ => apply orb_true_iff in H as [?|?]
    | H : (_ =? _) = true |- _ => apply Z.eqb_eq in H
    end;
    intros Hlegal; first [lia | discriminate Hlegal].
Qed.

Lemma pawns_in_front_step (g g' : ChessVar.t) (from_square to_square : string)
    (applied : bool) :
  Inv g → pawns_in_front (ChessVar._game_board g) →
  value (ChessVar.make_move g from_square to_square) = Ok (applied, g') →
  pawns_in_front (ChessVar._game_board g').
Proof.
  intros Hinv Hp Hstep. destruct applied;
    [|by apply make_move_inv in Hstep as [[_ ->]|[? _]]].
  destruct (applied_move_board _ _ _ _ Hinv Hstep)
    as (fr & fc & tr & tc & p & _ & _ & _ & _ & Hf & Ht & Hcell & Hlegal & _
        & Hcol & _ & _ & Hboard & _ & _).
  destruct Hinv as [Hwf _]. rewrite Hboard. intros row col Hin.
  rewrite cell_moved_any by done.
  case_decide as Hfrom; [done|]. case_decide as Hto; [|by apply Hp].
  injection Hto as <- <-. rewrite Hcell.
  assert (class_name p = Pawn →
          tr = fr + forward (ChessVar._player_turn g) ∨
          tr = fr + 2 * forward (ChessVar._player_turn g)) as Hfwd.
  { intros Hk. unfold is_valid_move in Hlegal. rewrite Hk in Hlegal.
    by eapply pawn_legal_forward. }
  unfold in_grid in *.
  split; intros [= ->]; simpl in Hcol; rewrite <- Hcol in Hfwd;
    destruct (Hfwd eq_refl); simpl in *; lia.
Qed.

(** X19. In every reachable game no pawn stands behind the rank its colour
    starts on: a WHITE pawn is never on row 7 and a BLACK pawn never on
    row 0. *)
Theorem pawns_never_behind_start (g : ChessVar.t) (row col : Z) :
  reachable g → in_grid row col →
  (piece_at (ChessVar._game_board g) row col (mkPiece Pawn WHITE) → row <= 6) ∧
  (piece_at (ChessVar._game_board g) row col (mkPiece Pawn BLACK) → 1 <= row).
Proof.
  intros Hreach Hin.
  assert (pawns_in_front (ChessVar._game_board g)) as Hp.
  { induction Hreach as [|g g' f t applied Hreach IH Hstep].
    - intros r c [Hr Hc].
      assert (r = 0 ∨ r = 1 ∨ r = 2 ∨ r = 3 ∨ r = 4 ∨ r = 5 ∨ r = 6 ∨ r = 7)
        as Hrow by lia.
      assert (c = 0 ∨ c = 1 ∨ c = 2 ∨ c = 3 ∨ c = 4 ∨ c = 5 ∨ c = 6 ∨ c = 7)
        as Hcol by lia.
      clear Hin Hr Hc.
      decompose [or] Hrow; decompose [or] Hcol; subst; clear;
        (split; intros H; vm_compute in H; first [discriminate H | lia]).
    - eapply pawns_in_front_step; [by apply reachable_Inv | by apply IH | done]. }
  pose proof (reachable_Inv g Hreach) as [Hwf _].
  rewrite !piece_at_cell by done. by apply Hp.
Qed.

(** ** The further properties at concrete games *)

Lemma reachable_before_capture : reachable before_capture.
Proof.
  apply (reachable_make_move (game_after (take 3 queen_hunt)) _ "A7" "A6" true);
    [|vm_compute; reflexivity].
  apply (reachable_make_move (game_after (take 2 queen_hunt)) _ "C1" "G5" true);
    [|vm_compute; reflexivity].
  apply (reachable_make_move (game_after (take 1 queen_hunt)) _ "E7" "E5" true);
    [|vm_compute; reflexivity].
  apply (reachable_make_move ChessVar.__init__ _ "D2" "D4" true);
    [|vm_compute; reflexivity].
  apply reachable_init.
Defined.

Lemma reachable_after_capture : reachable after_capture.
Proof.
  apply (reachable_make_move before_capture _ "G5" "D8" true);
    [apply reachable_before_capture | vm_compute; reflexivity].
Defined.

Lemma wf_grid_init : wf_grid ChessBoard.__init__.
Proof. split; [reflexivity | repeat constructor]. Defined.

Lemma wf_grid_before_capture : wf_grid (ChessVar._game_board before_capture).
Proof. vm_compute. split; [reflexivity | repeat constructor]. Defined.

Lemma rook_move_legal_iff_witness :
  value (Rook.is_valid_move (mkPiece Rook WHITE) ChessBoard.__init__ WHITE 7 0 5 0)
    = Ok true ↔
  value (Piece.is_valid_move (mkPiece Rook WHITE) ChessBoard.__init__ WHITE 7 0 5 0)
    = Ok true ∧
  (5 = 7 ∨ 0 = 0) ∧
  path_clear ChessBoard.__init__ 7 0 5 0.
Proof.
  apply (rook_move_legal_iff ChessBoard.__init__ WHITE (mkPiece Rook WHITE) 7 0 5 0).
  - apply wf_grid_init.
  - unfold in_grid. lia.
  - unfold in_grid. lia.
Defined.

Lemma bishop_move_legal_iff_witness :
  value (Bishop.is_valid_move (mkPiece Bishop WHITE)
           (ChessVar._game_board before_capture) WHITE 3 6 0 3) = Ok true ↔
  value (Piece.is_valid_move (mkPiece Bishop WHITE)
           (ChessVar._game_board before_capture) WHITE 3 6 0 3) = Ok true ∧
  Z.abs (0 - 3) = Z.abs (3 - 6) ∧
  path_clear (ChessVar._game_board before_capture) 3 6 0 3.
Proof.
  apply (bishop_move_legal_iff (ChessVar._game_board before_capture) WHITE
           (mkPiece Bishop WHITE) 3 6 0 3).
  - apply wf_grid_before_capture.
  - unfold in_grid. lia.
  - unfold in_grid. lia.
Defined.

Lemma queen_moves_as_rook_or_bishop_witness :
  value (Queen.is_valid_move (mkPiece Queen BLACK)
           (ChessVar._game_board before_capture) BLACK 0 3 3 6) = Ok true ↔
  value (Rook.is_valid_move (mkPiece Queen BLACK)
           (ChessVar._game_board before_capture) BLACK 0 3 3 6) = Ok true ∨
  value (Bishop.is_valid_move (mkPiece Queen BLACK)
           (ChessVar._game_board before_capture) BLACK 0 3 3 6) = Ok true.
Proof.
  apply (queen_moves_as_rook_or_bishop (ChessVar._game_board before_capture) BLACK
           (mkPiece Queen BLACK) 0 3 3 6).
  - apply wf_grid_before_capture.
  - unfold in_grid. lia.
  - unfold in_grid. lia.
Defined.

Lemma knight_move_legal_iff_witness :
  value (Knight.is_valid_move (mkPiece Knight WHITE) ChessBoard.__init__ WHITE 7 1 5 2)
    = Ok true ↔
  value (Piece.is_valid_move (mkPiece Knight WHITE) ChessBoard.__init__ WHITE 7 1 5 2)
    = Ok true ∧
  L_shape 7 1 5 2.
Proof.
  apply (knight_move_legal_iff ChessBoard.__init__ WHITE (mkPiece Knight WHITE)
           7 1 5 2).
  - apply wf_grid_init.
  - unfold in_grid. lia.
  - unfold in_grid. lia.
Defined.

Lemma get_piece_at_bounds_witness :
  (-8 <= -1 <= 7 ∧ -8 <= -8 <= 7 →
     value (ChessBoard.get_piece_at ChessBoard.__init__ (-1) (-8)) =
     value (ChessBoard.get_piece_at ChessBoard.__init__ (-1 mod 8) (-8 mod 8)) ∧
     in_grid (-1 mod 8) (-8 mod 8)) ∧
  (¬ (-8 <= -1 <= 7 ∧ -8 <= -8 <= 7) →
     value (ChessBoard.get_piece_at ChessBoard.__init__ (-1) (-8)) =
     Raise IndexError).
Proof.
  apply (get_piece_at_bounds ChessBoard.__init__ (-1) (-8)).
  apply wf_grid_init.
Defined.

Lemma move_piece_keeps_counts_witness :
  ∃ b', value (ChessBoard.move_piece ChessBoard.__init__ 7 4 7 4) = Ok b' ∧
        wf_grid b' ∧ counts_match b' ∧
        empty_at b' 7 4 ∧
        ((7, 4) ≠ (7, 4) →
           value (ChessBoard.get_piece_at b' 7 4) =
           value (ChessBoard.get_piece_at ChessBoard.__init__ 7 4)) ∧
        (∀ row col, in_grid row col →
           (row, col) ≠ (7, 4) → (row, col) ≠ (7, 4) →
           value (ChessBoard.get_piece_at b' row col) =
           value (ChessBoard.get_piece_at ChessBoard.__init__ row col)).
Proof.
  apply (move_piece_keeps_counts ChessBoard.__init__ 7 4 7 4).
  - apply wf_grid_init.
  - intros c k. destruct c, k; vm_compute; reflexivity.
  - unfold in_grid. lia.
  - unfold in_grid. lia.
Defined.

Lemma make_move_applies_iff_witness :
  (∃ g', value (ChessVar.make_move before_capture "G5" "D8") = Ok (true, g')) ↔
  ChessVar._game_state before_capture = UNFINISHED ∧
  "G5"%string ≠ "D8"%string ∧ token "G5" ∧ token "D8" ∧
  ∃ fr fc tr tc p,
    value (ChessVar.algebraic_to_indices "G5") = Ok (fr, fc) ∧
    value (ChessVar.algebraic_to_indices "D8") = Ok (tr, tc) ∧
    piece_at (ChessVar._game_board before_capture) fr fc p ∧
    value (is_valid_move p (ChessVar._game_board before_capture)
             (ChessVar._player_turn before_capture) fr fc tr tc) = Ok true.
Proof.
  apply (make_move_applies_iff before_capture "G5" "D8").
  apply reachable_before_capture.
Defined.

Lemma state_reflects_counts_witness :
  (ChessVar._game_state after_capture = WHITE_WON ↔
     any_zero (ChessVar._game_board after_capture) BLACK) ∧
  (ChessVar._game_state after_capture = BLACK_WON ↔
     any_zero (ChessVar._game_board after_capture) WHITE) ∧
  (ChessVar._game_state after_capture = UNFINISHED ↔
     ¬ any_zero (ChessVar._game_board after_capture) WHITE ∧
     ¬ any_zero (ChessVar._game_board after_capture) BLACK) ∧
  ¬ (any_zero (ChessVar._game_board after_capture) WHITE ∧
     any_zero (ChessVar._game_board after_capture) BLACK) ∧
  (ChessVar._game_state after_capture = WHITE_WON →
     ChessVar._player_turn after_capture = BLACK) ∧
  (ChessVar._game_state after_capture = BLACK_WON →
     ChessVar._player_turn after_capture = WHITE).
Proof.
  apply (state_reflects_counts after_capture).
  apply reachable_after_capture.
Defined.

Lemma only_the_mover_wins_witness :
  (ChessVar._game_state after_capture ≠ UNFINISHED ↔
   ∃ tr tc q,
     value (ChessVar.algebraic_to_indices "D8") = Ok (tr, tc) ∧
     piece_at (ChessVar._game_board before_capture) tr tc q ∧
     stored_count (ChessVar._game_board before_capture)
       (get_color q) (class_name q) = Some 1) ∧
  (ChessVar._game_state after_capture = UNFINISHED ∨
   ChessVar._player_turn before_capture = WHITE ∧
     ChessVar._game_state after_capture = WHITE_WON ∨
   ChessVar._player_turn before_capture = BLACK ∧
     ChessVar._game_state after_capture = BLACK_WON).
Proof.
  apply (only_the_mover_wins before_capture after_capture "G5" "D8").
  - apply reachable_before_capture.
  - vm_compute. reflexivity.
Defined.

Lemma counts_within_bounds_witness :
  ∃ n n0, stored_count (ChessVar._game_board after_capture) BLACK Queen = Some n ∧
          ChessBoard.full_set !! Queen = Some n0 ∧
          0 <= n <= n0.
Proof.
  apply (counts_within_bounds after_capture BLACK Queen).
  apply reachable_after_capture.
Defined.

Lemma make_move_ignores_case_witness :
  value (ChessVar.make_move ChessVar.__init__ (upper "a2") (upper "A2")) =
  value (ChessVar.make_move ChessVar.__init__ "a2" "A2").
Proof.
  apply (make_move_ignores_case ChessVar.__init__ "a2" "A2").
  apply reachable_init.
Defined.

Lemma repr_injective_witness : mkPiece King WHITE = mkPiece King WHITE.
Proof.
  apply (repr_injective (mkPiece King WHITE) (mkPiece King WHITE)).
  reflexivity.
Defined.

Lemma pawns_never_behind_start_witness :
  (piece_at (ChessVar._game_board after_capture) 4 3 (mkPiece Pawn WHITE) → 4 <= 6) ∧
  (piece_at (ChessVar._game_board after_capture) 4 3 (mkPiece Pawn BLACK) → 1 <= 4).
Proof.
  apply (pawns_never_behind_start after_capture 4 3).
  - apply reachable_after_capture.
  - unfold in_grid. lia.
Defined.
